(** * amoniaco.py: split-operator integration of the 1-D Schroedinger equation

    A shallow embedding of [src/amoniaco.py] (potential model, state
    initialiser, kinetic and potential propagators, split-step integrator)
    and the properties of its specification.

    Number model.  The program computes with IEEE doubles and numpy's
    complex128.  Here a Python float is a real number ([R]) and a complex128
    is a pair of reals, so every statement below is a statement about the
    program in exact arithmetic.  numpy's [fft], [ifft], [fftfreq] and
    [linspace] are embedded from their documented definitions. *)

From Stdlib Require Import Reals List Lia Lra Bool Arith.
Import ListNotations.
Open Scope R_scope.

(* ------------------------------------------------------------------------- *)
(** ** Complex numbers (numpy complex128, idealised) *)
(* ------------------------------------------------------------------------- *)

Definition complex : Type := (R * R)%type.

Definition Czero : complex := (0, 0).
Definition Cone : complex := (1, 0).
(** Python's [1j]. *)
Definition Ci : complex := (0, 1).
Definition RtoC (r : R) : complex := (r, 0).

Definition Cplus (z w : complex) : complex := (fst z + fst w, snd z + snd w).
Definition Copp (z : complex) : complex := (- fst z, - snd z).
Definition Cmult (z w : complex) : complex :=
  (fst z * fst w - snd z * snd w, fst z * snd w + snd z * fst w).
Definition Cconj (z : complex) : complex := (fst z, - snd z).
(** complex * float and complex / float act on both components. *)
Definition Cscale (r : R) (z : complex) : complex := (fst z * r, snd z * r).
Definition Cdiv_real (z : complex) (r : R) : complex := (fst z / r, snd z / r).
(** [np.abs] on a complex number. *)
Definition Cabs (z : complex) : R := sqrt (fst z * fst z + snd z * snd z).
(** [np.exp] on a complex number. *)
Definition Cexp (z : complex) : complex :=
  (exp (fst z) * cos (snd z), exp (fst z) * sin (snd z)).

(** The unit-modulus number of argument [t]; every phase factor of the
    program is shown to be one of these. *)
Definition cis (t : R) : complex := (cos t, sin t).

(** Sum of [F 0 .. F (n-1)]. *)
Fixpoint Csum (n : nat) (F : nat -> complex) : complex :=
  match n with
  | O => Czero
  | S n' => Cplus (Csum n' F) (F n')
  end.

(** [np.sum] of a real array. *)
Definition Rsum (l : list R) : R := fold_right Rplus 0 l.

(* ------------------------------------------------------------------------- *)
(** ** Arrays and the exceptions numpy raises *)
(* ------------------------------------------------------------------------- *)

(** A call that raises is [None]. *)
Definition bind {A B : Type} (o : option A) (k : A -> option B) : option B :=
  match o with
  | Some a => k a
  | None => None
  end.

Notation "x <- e ;; k" := (bind e (fun x => k))
  (at level 61, e at next level, right associativity).
Notation "' p <- e ;; k" := (bind e (fun v => match v with p => k end))
  (at level 61, p pattern, e at next level, right associativity).

Fixpoint zipWith {A B D : Type} (g : A -> B -> D) (a : list A) (b : list B)
  : list D :=
  match a, b with
  | u :: a', v :: b' => g u v :: zipWith g a' b'
  | _, _ => []
  end.

(** In-place [a *= b] on 1-D arrays: [b] must have the shape of [a] or
    broadcast to it (length 1); otherwise numpy raises ValueError. *)
Definition imul (a b : list complex) : option (list complex) :=
  if (length b =? length a)%nat then Some (zipWith Cmult a b)
  else match b with
       | [b0] => Some (map (fun z => Cmult z b0) a)
       | _ => None
       end.

(** [np.fft.fft]: A_k = sum_m a_m exp(-2 pi i m k / n); raises on an empty
    array. *)
Definition dft (a : list complex) : list complex :=
  let n := length a in
  map (fun k =>
         Csum n (fun m =>
           Cmult (nth m a Czero)
                 (Cexp (Cscale (- (2 * PI * INR m * INR k / INR n)) Ci))))
      (seq 0 n).

Definition fft (a : list complex) : option (list complex) :=
  match a with
  | [] => None
  | _ => Some (dft a)
  end.

(** [np.fft.ifft]: a_m = (1/n) sum_k A_k exp(2 pi i m k / n); raises on an
    empty array. *)
Definition idft (A : list complex) : list complex :=
  let n := length A in
  map (fun m =>
         Cscale (1 / INR n)
           (Csum n (fun k =>
              Cmult (nth k A Czero)
                    (Cexp (Cscale (2 * PI * INR m * INR k / INR n) Ci)))))
      (seq 0 n).

Definition ifft (A : list complex) : option (list complex) :=
  match A with
  | [] => None
  | _ => Some (idft A)
  end.

(** [np.fft.fftfreq(n, d)]: [val = 1.0 / (n * d)] raises ZeroDivisionError
    when [n * d] is zero; the first [(n-1)//2 + 1] entries are 0, 1, ..., the
    others -(n//2), ..., -1; all scaled by [val]. *)
Definition fftfreq (n : nat) (d : R) : option (list R) :=
  if Req_dec_T (INR n * d) 0 then None
  else
    let val := 1 / (INR n * d) in
    let N := ((n - 1) / 2 + 1)%nat in
    Some (map (fun i =>
                 (if (i <? N)%nat then INR i
                  else - INR (n / 2) + INR (i - N)) * val)
              (seq 0 n)).

(** [np.linspace(start, stop, num)] with the default [endpoint=True]:
    [div = num - 1], [step = delta / div], the samples are
    [arange(0, num) * step + start], and the last one is set to [stop] when
    [num > 1]. With [div = 0] the samples are [arange(0, num) * delta + start]. *)
Definition set_last {A : Type} (v : A) (l : list A) : list A :=
  match l with
  | [] => []
  | _ => removelast l ++ [v]
  end.

Definition linspace (start stop : R) (num : nat) : list R :=
  let div := (num - 1)%nat in
  let delta := stop - start in
  let y := map INR (seq 0 num) in
  let y := if (0 <? div)%nat
           then map (fun v => v * (delta / INR div) + start) y
           else map (fun v => v * delta + start) y in
  if (1 <? num)%nat then set_last stop y else y.

(** Comparisons of floats, as booleans. *)
Definition Rgtb (u v : R) : bool := if Rlt_dec v u then true else false.
Definition Rleb (u v : R) : bool := if Rle_dec u v then true else false.

(** Boolean-mask assignment [arr[mask] = v]. *)
Definition mask_set (c : bool) (v old : R) : R := if c then v else old.
Definition mask_assign (mask : list bool) (v : R) (arr : list R) : list R :=
  zipWith (fun c old => mask_set c v old) mask arr.

(** [buf[i] = v] on a 1-D buffer: IndexError when [i] is out of range. *)
Fixpoint set_at {A : Type} (i : nat) (v : A) (l : list A) : option (list A) :=
  match l, i with
  | [], _ => None
  | _ :: l', O => Some (v :: l')
  | u :: l', S i' => l'' <- set_at i' v l' ;; Some (u :: l'')
  end.

(** Row assignment [rows[i] = v] on a 2-D buffer: IndexError when [i] is out
    of range, ValueError when [v] neither has the row's shape nor broadcasts
    to it. *)
Definition set_row (i : nat) (v : list R) (rows : list (list R))
  : option (list (list R)) :=
  row <- nth_error rows i ;;
  v' <- (if (length v =? length row)%nat then Some v
         else match v with
              | [v0] => Some (repeat v0 (length row))
              | _ => None
              end) ;;
  set_at i v' rows.

(** [np.max] / [np.amax] of a 1-D array: ValueError on an empty one. *)
Definition np_max (l : list R) : option R :=
  match l with
  | [] => None
  | u :: l' => Some (fold_left Rmax l' u)
  end.

Definition Rltb (u v : R) : bool := if Rlt_dec u v then true else false.

(* ------------------------------------------------------------------------- *)
(** ** The program *)
(* ------------------------------------------------------------------------- *)

(** The diagnostic history: the module-level arrays [density_prob],
    [time_arr] and [norm_arr] that [runsplit] fills. *)
Record buffers : Type := mkBuffers {
  density_prob : list (list R);
  time_arr : list R;
  norm_arr : list R
}.

(** One event per write into a diagnostic slot, in program order. *)
Inductive event : Type :=
| WriteNorm (i : nat)
| WriteDensity (i : nat)
| WriteTime (i : nat).

Section Amoniaco.

(** The module-level parameters set under [__main__]. *)
Variable L : R.
Variable Nx : nat.
Variable Nt : nat.
Variable dt : R.
Variable f : nat.
Variable hbar : R.
Variable m : R.
Variable V0 : R.

(** What a cell of [np.empty_like] holds before it is assigned. *)
Variable uninit : nat -> R.

Definition dx : R := L / INR Nx.
Definition x : list R := linspace (- L / 2) (L / 2) Nx.

Definition empty_like (a : list R) : list R := map uninit (seq 0 (length a)).

(** [V(x, t, V0, type)] on an array of positions. *)
Definition V (x : list R) (t : R) (V0 : R) (type : nat) : list R :=
  let a := 0.07 in
  let b := 0.04 in
  let V_out := 1e6 in
  let V_array := empty_like x in
  let V_array := mask_assign (map (fun xi => Rgtb (Rabs xi) a) x) V_out V_array in
  let cond_wells :=
    zipWith andb (map (fun xi => Rleb (Rabs xi) a) x)
                 (map (fun xi => Rgtb (Rabs xi) b) x) in
  let V_array := mask_assign cond_wells 0.0 V_array in
  let cond_barrier := map (fun xi => Rleb (Rabs xi) b) x in
  let V_array := mask_assign cond_barrier V0 V_array in
  V_array.

(** The same statements on a scalar position (a 0-d array: one cell). *)
Definition V_scalar (x : R) (t : R) (V0 : R) (type : nat) : R :=
  let a := 0.07 in
  let b := 0.04 in
  let V_out := 1e6 in
  let V_array := uninit 0 in
  let V_array := mask_set (Rgtb (Rabs x) a) V_out V_array in
  let cond_wells := andb (Rleb (Rabs x) a) (Rgtb (Rabs x) b) in
  let V_array := mask_set cond_wells 0.0 V_array in
  let cond_barrier := Rleb (Rabs x) b in
  let V_array := mask_set cond_barrier V0 V_array in
  V_array.

(** [np.sum(np.abs(psi)**2) * dx]. *)
Definition norm (psi : list complex) : R :=
  Rsum (map (fun z => Cabs z ^ 2) psi) * dx.

(** [init()]: the Gaussian is a real array; [Nt//f] raises when [f] is 0. *)
Definition init : option (list (list R) * list R * list R * list R) :=
  let sigma := 0.005 in
  let center := 0.06 in
  let psi := map (fun xi => exp (- ((xi - center) ^ 2) / (2 * sigma ^ 2))) x in
  let norm0 := sqrt (Rsum (map (fun p => Rabs p ^ 2) psi) * dx) in
  let psi := map (fun p => p / norm0) psi in
  if (f =? 0)%nat then None
  else
    let density_prob := repeat (repeat 0 Nx) (Nt / f + 1) in
    let time_arr := repeat 0 (Nt / f + 1) in
    let norm_arr := repeat 0 (Nt / f + 1) in
    density_prob <- set_row 0 (map (fun p => Rabs p ^ 2) psi) density_prob ;;
    norm_arr <- set_at 0 (Rsum (map (fun p => Rabs p ^ 2) psi) * dx) norm_arr ;;
    Some (density_prob, time_arr, norm_arr, psi).

(** [Top(psi, dt)]: the kinetic propagator. *)
Definition Top (psi : list complex) (dt : R) : option (list complex) :=
  psi_k <- fft psi ;;
  freq <- fftfreq Nx dx ;;
  let k_vec := map (fun v => v * 2 * PI) freq in
  psi_k <- imul psi_k
             (map (fun k =>
                     Cexp (Cdiv_real (Cscale (hbar * k ^ 2 * dt) (Copp Ci))
                                     (2 * m)))
                  k_vec) ;;
  ifft psi_k.

(** [Vop(psi, x, t, dt)]: the potential propagator. *)
Definition Vop (psi : list complex) (x : list R) (t dt : R)
  : option (list complex) :=
  imul psi
    (map (fun v => Cexp (Cdiv_real (Cscale dt (Cscale v (Copp Ci))) hbar))
         (V x (t + dt / 2) V0 6)).

(** The inner loop of [runsplit]: [f] times, advance [t_current], then
    [Top] and [Vop] for a full [dt]. *)
Fixpoint inner_loop (na : nat) (t_current : R) (psi : list complex)
  : option (R * list complex) :=
  match na with
  | O => Some (t_current, psi)
  | S na' =>
      let t_current := t_current + dt in
      psi <- Top psi dt ;;
      psi <- Vop psi x t_current dt ;;
      inner_loop na' t_current psi
  end.

(** The state [runsplit] threads: the wavefunction, the diagnostic buffers,
    and the log of writes made so far. *)
Definition run_state : Type := (list complex * buffers * list event)%type.

(** The body of the outer loop for the index [nt]. *)
Definition outer_body (nt : nat) (st : run_state) : option run_state :=
  let '(psi, bufs, log) := st in
  psi <- Top psi (- dt / 2) ;;
  t_current <- nth_error (time_arr bufs) nt ;;
  '(t_current, psi) <- inner_loop f t_current psi ;;
  psi <- Top psi (dt / 2) ;;
  norm_arr' <- set_at (nt + 1) (norm psi) (norm_arr bufs) ;;
  density_prob' <- set_row (nt + 1) (map (fun z => Cabs z ^ 2) psi)
                     (density_prob bufs) ;;
  time_arr' <- set_at (nt + 1) t_current (time_arr bufs) ;;
  Some (psi, mkBuffers density_prob' time_arr' norm_arr',
        log ++ [WriteNorm (nt + 1); WriteDensity (nt + 1); WriteTime (nt + 1)]).

Fixpoint outer_loop (nts : list nat) (st : run_state) : option run_state :=
  match nts with
  | [] => Some st
  | nt :: nts' => st' <- outer_body nt st ;; outer_loop nts' st'
  end.

(** [runsplit(psi)]. The two [print] calls read [norm_arr[0]] and
    [norm_arr[-1]]; [Nt//f] raises when [f] is 0. *)
Definition runsplit (bufs : buffers) (psi : list complex) : option run_state :=
  norm_first <- nth_error (norm_arr bufs) 0 ;;
  if (f =? 0)%nat then None
  else
    st <- outer_loop (seq 0 (Nt / f)) (psi, bufs, []) ;;
    norm_last <- nth_error (norm_arr (snd (fst st)))
                   (length (norm_arr (snd (fst st))) - 1) ;;
    Some st.

(** The run under [__main__]: [dx = L / Nx] raises when [Nx] is 0; then
    [init()] and [runsplit(psi)]; the FFT reads the real Gaussian as a
    complex array. *)
Definition main : option run_state :=
  if (Nx =? 0)%nat then None
  else
    '(density_prob0, time_arr0, norm_arr0, psi) <- init ;;
    runsplit (mkBuffers density_prob0 time_arr0 norm_arr0) (map RtoC psi).

(** What one call [update(frame, line, ax, fig, maxv)] hands to matplotlib:
    the two numbers of the title, the axis limits, the density curve and the
    scaled potential curve. *)
Record frame_plot : Type := mkFramePlot {
  title_t : R;
  title_norm : R;
  xlim : R * R;
  ylim : R * R;
  curve_density : list R;
  curve_potential : list R
}.

(** [update]: the reads [density_prob[frame]], [time_arr[frame]],
    [norm_arr[frame]], [x[0]] and [x[-1]] raise IndexError out of range;
    [ax.plot(x, y)] raises ValueError when the two differ in length; the
    potential is scaled by [maxv / max(V_plot[V_plot < 1e5])] when some
    value is below 1e5, and by 1 otherwise. (When that maximum is 0 numpy
    divides to inf; no statement below is about that case.) *)
Definition update (bufs : buffers) (frame : nat) (maxv : R)
  : option frame_plot :=
  y <- nth_error (density_prob bufs) frame ;;
  t_frame <- nth_error (time_arr bufs) frame ;;
  norm_frame <- nth_error (norm_arr bufs) frame ;;
  x_first <- nth_error x 0 ;;
  x_last <- nth_error x (length x - 1) ;;
  if negb (length y =? length x)%nat then None
  else
  let V_plot := V x t_frame V0 6 in
  scale_factor <-
    (if existsb (fun v => Rltb v 1e5) V_plot
     then mx <- np_max (filter (fun v => Rltb v 1e5) V_plot) ;;
          Some (maxv / mx)
     else Some 1) ;;
  Some (mkFramePlot t_frame norm_frame (x_first, x_last) (0, maxv) y
          (map (fun v => v * scale_factor) V_plot)).

(** [show]: the upper y-limit of the animation,
    [maxv = np.amax(density_prob)], the largest entry of the 2-D buffer;
    ValueError when the buffer has no entry. *)
Definition show_maxv (density_prob : list (list R)) : option R :=
  np_max (concat density_prob).

(* ------------------------------------------------------------------------- *)
(** ** Vocabulary of the statements *)
(* ------------------------------------------------------------------------- *)

(** The angular wavenumbers [k_vec] of [Top]. *)
Definition k_vec : list R :=
  match fftfreq Nx dx with
  | Some freq => map (fun v => v * 2 * PI) freq
  | None => []
  end.

(** The region rule of the specification: outer wall, side wells, barrier. *)
Definition V_region (V0 xi : R) : R :=
  if Rlt_dec 0.07 (Rabs xi) then 1e6
  else if Rlt_dec 0.04 (Rabs xi) then 0
  else V0.

(** What [Top] and [Vop] return when they do not raise. *)
Definition Top_fn (psi : list complex) (tau : R) : list complex :=
  idft (zipWith Cmult (dft psi)
          (map (fun k => cis (- (hbar * k ^ 2 * tau) / (2 * m))) k_vec)).

Definition Vop_fn (psi : list complex) (tau : R) : list complex :=
  zipWith Cmult psi
    (map (fun v => cis (- (v * tau) / hbar)) (map (V_region V0) x)).

(** What the inner loop leaves after [n] rounds. *)
Fixpoint inner_fn (n : nat) (psi : list complex) : list complex :=
  match n with
  | O => psi
  | S n' => inner_fn n' (Vop_fn (Top_fn psi dt) dt)
  end.

(** The wavefunction after one outer iteration. *)
Definition outer_fn (psi : list complex) : list complex :=
  Top_fn (inner_fn f (Top_fn psi (- dt / 2))) (dt / 2).

(** The Gaussian profile of [init]: centre 0.06, width 0.005. *)
Definition gaussian (xi : R) : R := exp (- ((xi - 0.06) ^ 2) / (2 * 0.005 ^ 2)).

(** [np.sum(np.abs(psi)**2) * dx] for a real array. *)
Definition norm_real (psi : list R) : R :=
  Rsum (map (fun p => Rabs p ^ 2) psi) * dx.

(** The wavefunction [init] returns. *)
Definition psi_init : list R :=
  map (fun p => p / sqrt (norm_real (map gaussian x))) (map gaussian x).

(** The list [l] with position [i] replaced by [v]. *)
Definition upd {A : Type} (i : nat) (v : A) (l : list A) : list A :=
  firstn i l ++ v :: skipn (S i) l.

(** The events of outer iteration [nt]. *)
Definition writes_of (nt : nat) : list event :=
  [WriteNorm (nt + 1); WriteDensity (nt + 1); WriteTime (nt + 1)].

(** The indices written into each buffer, in program order. *)
Definition written_norm (log : list event) : list nat :=
  flat_map (fun e => match e with WriteNorm i => [i] | _ => [] end) log.
Definition written_density (log : list event) : list nat :=
  flat_map (fun e => match e with WriteDensity i => [i] | _ => [] end) log.
Definition written_time (log : list event) : list nat :=
  flat_map (fun e => match e with WriteTime i => [i] | _ => [] end) log.

(** The buffers have [M] slots each, and every density row has the grid's
    size. *)
Definition bufs_shape (M : nat) (b : buffers) : Prop :=
  length (density_prob b) = M
  /\ Forall (fun r => length r = Nx) (density_prob b)
  /\ length (time_arr b) = M
  /\ length (norm_arr b) = M.

(** What holds after the outer iterations [0 .. a-1], for buffers of [M]
    slots and a run that starts with norm [c]. *)
Definition run_inv (M : nat) (c : R) (a : nat) (st : run_state) : Prop :=
  let '(psi, b, log) := st in
  length psi = Nx
  /\ bufs_shape M b
  /\ norm psi = c
  /\ (forall k, (k <= a)%nat ->
        nth_error (time_arr b) k = Some (INR k * INR f * dt))
  /\ (forall k, (k <= a)%nat -> nth_error (norm_arr b) k = Some c)
  /\ log = flat_map writes_of (seq 0 a).

(** The standard second-order (Strang) step of the specification: kinetic
    half-step, potential full step, kinetic half-step; and [n] of them. *)
Definition strang_step (psi : list complex) (t : R) : option (list complex) :=
  psi <- Top psi (dt / 2) ;;
  psi <- Vop psi x t dt ;;
  Top psi (dt / 2).

Fixpoint strang_steps (n : nat) (t : R) (psi : list complex)
  : option (list complex) :=
  match n with
  | O => Some psi
  | S n' => psi <- strang_step psi t ;; strang_steps n' (t + dt) psi
  end.


(** One Strang step, and [n] of them, when they do not raise. *)
Fixpoint strang_fn (n : nat) (psi : list complex) : list complex :=
  match n with
  | O => psi
  | S n' => strang_fn n' (Top_fn (Vop_fn (Top_fn psi (dt / 2)) dt) (dt / 2))
  end.

(** [np.sum] of a complex array. *)
Definition Csum_list (l : list complex) : complex := fold_right Cplus Czero l.

(** What holds after the outer iterations [0 .. a-1] of a run that started
    from the wavefunction [psi0] and the buffers [b0]: the wavefunction is
    [a] outer steps from [psi0], the slots [1 .. a] hold the samples, and
    every other slot is as in [b0]. *)
Definition run_trace (psi0 : list complex) (b0 : buffers) (a : nat)
    (st : run_state) : Prop :=
  let '(psi, b, log) := st in
  psi = Nat.iter a outer_fn psi0
  /\ (forall k, (1 <= k <= a)%nat ->
        nth_error (density_prob b) k
        = Some (map (fun z => Cabs z ^ 2) (Nat.iter k outer_fn psi0))
        /\ nth_error (norm_arr b) k = Some (norm (Nat.iter k outer_fn psi0)))
  /\ (forall k, (k = 0 \/ a < k)%nat ->
        nth_error (density_prob b) k = nth_error (density_prob b0) k
        /\ nth_error (time_arr b) k = nth_error (time_arr b0) k
        /\ nth_error (norm_arr b) k = nth_error (norm_arr b0) k).

(** Some buffer has no slot [nt + 1]. *)
Definition lacks_slot (nt : nat) (b : buffers) : Prop :=
  (length (norm_arr b) <= nt + 1)%nat
  \/ (length (density_prob b) <= nt + 1)%nat
  \/ (length (time_arr b) <= nt + 1)%nat.

(** The sizes and the clock after the outer iterations [0 .. a-1], for
    buffers of [M] slots whose first time is [t00]. *)
Definition run_shape (M : nat) (t00 : R) (a : nat) (st : run_state) : Prop :=
  let '(psi, b, log) := st in
  length psi = Nx
  /\ bufs_shape M b
  /\ forall k, (k <= a)%nat ->
       nth_error (time_arr b) k = Some (t00 + INR k * INR f * dt).

(** The scale factor [update] computes for the potential [V_plot]. *)
Definition scale_of (maxv : R) (V_plot : list R) : option R :=
  if existsb (fun v => Rltb v 1e5) V_plot
  then mx <- np_max (filter (fun v => Rltb v 1e5) V_plot) ;; Some (maxv / mx)
  else Some 1.

(** The plotted potential: the wall scaled by [maxv / B], zero in the
    wells, [maxv] on the barrier. *)
Definition V_drawn (B maxv xi : R) : R :=
  if Rlt_dec 0.07 (Rabs xi) then 1e6 * (maxv / B)
  else if Rlt_dec 0.04 (Rabs xi) then 0
  else maxv.

(** The superposition [c1 * a + c2 * b] of two arrays of one size. *)
Definition superpose (c1 : complex) (a : list complex) (c2 : complex)
    (b : list complex) : list complex :=
  zipWith Cplus (map (Cmult c1) a) (map (Cmult c2) b).

(* ------------------------------------------------------------------------- *)
(** ** Complex arithmetic *)
(* ------------------------------------------------------------------------- *)

Ltac cunfold :=
  unfold Cmult, Cplus, Copp, Cconj, Cscale, Cdiv_real, RtoC, Czero, Cone, Ci,
    cis in *; cbn [fst snd] in *.

(** Close an equation between complex numbers that holds by ring identities
    on the components. *)
Ltac cring :=
  intros;
  repeat match goal with z : complex |- _ => destruct z end;
  cunfold; f_equal; ring.

Lemma Cmult_comm (z w : complex) : Cmult z w = Cmult w z.
Proof. cring. Qed.

Lemma Cmult_assoc (z w u : complex) : Cmult z (Cmult w u) = Cmult (Cmult z w) u.
Proof. cring. Qed.

Lemma Cmult_1_r (z : complex) : Cmult z Cone = z.
Proof. cring. Qed.

Lemma Cmult_0_r (z : complex) : Cmult z Czero = Czero.
Proof. cring. Qed.

Lemma Cmult_0_l (z : complex) : Cmult Czero z = Czero.
Proof. cring. Qed.

Lemma Cplus_0_l (z : complex) : Cplus Czero z = z.
Proof. cring. Qed.

Lemma Cplus_0_r (z : complex) : Cplus z Czero = z.
Proof. cring. Qed.

Lemma Cmult_plus_distr_l (z w u : complex) :
  Cmult z (Cplus w u) = Cplus (Cmult z w) (Cmult z u).
Proof. cring. Qed.

Lemma Cmult_plus_distr_r (z w u : complex) :
  Cmult (Cplus w u) z = Cplus (Cmult w z) (Cmult u z).
Proof. cring. Qed.

Lemma Cscale_mult_l (r : R) (z w : complex) :
  Cscale r (Cmult z w) = Cmult (Cscale r z) w.
Proof. cring. Qed.

Lemma Cscale_plus (r : R) (z w : complex) :
  Cscale r (Cplus z w) = Cplus (Cscale r z) (Cscale r w).
Proof. cring. Qed.

Lemma Cscale_Cscale (r s : R) (z : complex) :
  Cscale r (Cscale s z) = Cscale (s * r) z.
Proof. cring. Qed.

Lemma Cscale_1 (z : complex) : Cscale 1 z = z.
Proof. cring. Qed.

Lemma Cconj_mult (z w : complex) :
  Cconj (Cmult z w) = Cmult (Cconj z) (Cconj w).
Proof. cring. Qed.

Lemma Cconj_plus (z w : complex) :
  Cconj (Cplus z w) = Cplus (Cconj z) (Cconj w).
Proof. cring. Qed.

Lemma Cconj_scale (r : R) (z : complex) :
  Cconj (Cscale r z) = Cscale r (Cconj z).
Proof. cring. Qed.

Lemma Cabs_sq (z : complex) : Cabs z ^ 2 = fst z * fst z + snd z * snd z.
Proof.
  unfold Cabs. simpl. rewrite Rmult_1_r. apply sqrt_sqrt. nra.
Qed.

Lemma Cabs_sq_conj (z : complex) : Cmult z (Cconj z) = RtoC (Cabs z ^ 2).
Proof.
  rewrite Cabs_sq. destruct z. cunfold. f_equal; ring.
Qed.

Lemma Cabs_sq_mult (z w : complex) :
  Cabs (Cmult z w) ^ 2 = Cabs z ^ 2 * Cabs w ^ 2.
Proof.
  rewrite !Cabs_sq. destruct z, w. simpl. ring.
Qed.

Lemma Cabs_sq_scale (r : R) (z : complex) :
  Cabs (Cscale r z) ^ 2 = r * r * Cabs z ^ 2.
Proof.
  rewrite !Cabs_sq. destruct z. simpl. ring.
Qed.

(** *** Phase factors *)

Lemma cis_0 : cis 0 = Cone.
Proof. unfold cis, Cone. now rewrite cos_0, sin_0. Qed.

Lemma cis_plus (a b : R) : Cmult (cis a) (cis b) = cis (a + b).
Proof.
  unfold cis, Cmult. simpl. rewrite cos_plus, sin_plus. f_equal; ring.
Qed.

Lemma cis_conj (a : R) : Cconj (cis a) = cis (- a).
Proof. unfold cis, Cconj. simpl. now rewrite cos_neg, sin_neg. Qed.

Lemma Cabs_sq_cis (a : R) : Cabs (cis a) ^ 2 = 1.
Proof.
  rewrite Cabs_sq. simpl. generalize (sin2_cos2 a). unfold Rsqr. lra.
Qed.

(** [np.exp(1j * t)] for a real [t] is a phase factor. *)
Lemma Cexp_imag (t : R) : Cexp (Cscale t Ci) = cis t.
Proof.
  unfold Cexp, Cscale, Ci, cis. simpl.
  rewrite Rmult_0_l, exp_0, !Rmult_1_l. reflexivity.
Qed.

Lemma cis_2PI_nat (k : nat) : cis (2 * INR k * PI) = Cone.
Proof.
  unfold cis, Cone.
  replace (2 * INR k * PI) with (0 + 2 * INR k * PI) by ring.
  now rewrite cos_period, sin_period, cos_0, sin_0.
Qed.

(** A phase factor whose argument is an integer multiple of 2 pi is 1. *)
Lemma cis_2PI_diff (j l : nat) : cis (2 * PI * (INR j - INR l)) = Cone.
Proof.
  replace (2 * PI * (INR j - INR l))
    with (2 * INR j * PI + - (2 * INR l * PI)) by ring.
  rewrite <- cis_plus, <- cis_conj, !cis_2PI_nat. cring.
Qed.

(** A phase factor with argument strictly between -2 pi and 2 pi, other
    than 0, is not 1. *)
Lemma cis_neq_1 (a : R) : - (2 * PI) < a < 2 * PI -> a <> 0 -> cis a <> Cone.
Proof.
  intros [Hlo Hhi] Hnz Heq.
  unfold cis, Cone in Heq. injection Heq as Hc _.
  replace a with (2 * (a / 2)) in Hc by field.
  rewrite cos_2a_sin in Hc.
  assert (Hs : sin (a / 2) = 0) by nra.
  destruct (Rlt_or_le 0 a) as [Hpos | Hneg].
  - assert (0 < sin (a / 2)) by (apply sin_gt_0; lra). lra.
  - assert (0 < sin (- (a / 2))) by (apply sin_gt_0; lra).
    rewrite sin_neg in *. lra.
Qed.

Lemma Cmult_integral (z w : complex) :
  Cmult z w = Czero -> z = Czero \/ w = Czero.
Proof.
  intros H.
  assert (Hn : Cabs z ^ 2 * Cabs w ^ 2 = 0).
  { rewrite <- Cabs_sq_mult, H, Cabs_sq. simpl. ring. }
  rewrite !Cabs_sq in Hn. destruct z as [a b], w as [c d]. simpl in Hn.
  apply Rmult_integral in Hn. destruct Hn as [Hn | Hn]; [left | right];
    unfold Czero; f_equal; nra.
Qed.

(* ------------------------------------------------------------------------- *)
(** ** Finite sums *)
(* ------------------------------------------------------------------------- *)

Lemma Csum_ext (n : nat) (F G : nat -> complex) :
  (forall i, (i < n)%nat -> F i = G i) -> Csum n F = Csum n G.
Proof.
  induction n as [| n IH]; intros H; simpl; [reflexivity |].
  rewrite IH, H by (intros; try apply H; lia). reflexivity.
Qed.

Lemma Csum_zero (n : nat) : Csum n (fun _ => Czero) = Czero.
Proof.
  induction n as [| n IH]; simpl; [reflexivity |].
  rewrite IH. apply Cplus_0_l.
Qed.

Lemma Csum_plus (n : nat) (F G : nat -> complex) :
  Csum n (fun i => Cplus (F i) (G i)) = Cplus (Csum n F) (Csum n G).
Proof.
  induction n as [| n IH]; simpl; [cring |].
  rewrite IH. cring.
Qed.

Lemma Csum_mult_l (n : nat) (c : complex) (F : nat -> complex) :
  Csum n (fun i => Cmult c (F i)) = Cmult c (Csum n F).
Proof.
  induction n as [| n IH]; simpl; [cring |].
  rewrite IH. cring.
Qed.

Lemma Csum_mult_r (n : nat) (c : complex) (F : nat -> complex) :
  Csum n (fun i => Cmult (F i) c) = Cmult (Csum n F) c.
Proof.
  induction n as [| n IH]; simpl; [cring |].
  rewrite IH. cring.
Qed.

Lemma Csum_scale (n : nat) (r : R) (F : nat -> complex) :
  Csum n (fun i => Cscale r (F i)) = Cscale r (Csum n F).
Proof.
  induction n as [| n IH]; simpl; [cring |].
  rewrite IH. cring.
Qed.

Lemma Csum_conj (n : nat) (F : nat -> complex) :
  Csum n (fun i => Cconj (F i)) = Cconj (Csum n F).
Proof.
  induction n as [| n IH]; simpl; [cring |].
  rewrite IH. cring.
Qed.

(** Exchange of two finite sums. *)
Lemma Csum_swap (n p : nat) (F : nat -> nat -> complex) :
  Csum n (fun i => Csum p (fun j => F i j))
  = Csum p (fun j => Csum n (fun i => F i j)).
Proof.
  induction n as [| n IH]; simpl.
  - now rewrite Csum_zero.
  - rewrite IH, <- Csum_plus. reflexivity.
Qed.

(** A sum with a single non-zero term. *)
Lemma Csum_single (n j : nat) (F : nat -> complex) :
  (j < n)%nat ->
  (forall i, (i < n)%nat -> i <> j -> F i = Czero) ->
  Csum n F = F j.
Proof.
  induction n as [| n IH]; intros Hj Hz; [lia |].
  simpl. destruct (Nat.eq_dec j n) as [-> | Hne].
  - rewrite (Csum_ext n F (fun _ => Czero)) by (intros; apply Hz; lia).
    rewrite Csum_zero. apply Cplus_0_l.
  - rewrite IH by (try lia; intros; apply Hz; lia).
    rewrite (Hz n) by lia. apply Cplus_0_r.
Qed.

Lemma Csum_const (n : nat) (c : complex) :
  Csum n (fun _ => c) = Cscale (INR n) c.
Proof.
  induction n as [| n IH].
  - simpl. cring.
  - cbn [Csum]. rewrite IH, S_INR. cring.
Qed.

Lemma Rsum_app (l1 l2 : list R) : Rsum (l1 ++ l2) = Rsum l1 + Rsum l2.
Proof.
  induction l1 as [| u t IH]; simpl; [ring |].
  unfold Rsum in *. simpl. rewrite IH. ring.
Qed.

(** The squared magnitudes of an array, summed, as a complex sum. *)
Lemma Rsum_abs_sq (l : list complex) :
  RtoC (Rsum (map (fun z => Cabs z ^ 2) l))
  = Csum (length l) (fun i => Cmult (nth i l Czero) (Cconj (nth i l Czero))).
Proof.
  induction l as [| z l IH] using rev_ind; [reflexivity |].
  rewrite map_app, length_app, Nat.add_comm, Rsum_app.
  cbn [length Nat.add Csum].
  rewrite (Csum_ext _ _
             (fun i => Cmult (nth i l Czero) (Cconj (nth i l Czero))))
    by (intros i Hi; now rewrite app_nth1).
  rewrite <- IH, nth_middle, Cabs_sq_conj.
  cbn [map Rsum fold_right]. cunfold. f_equal; ring.
Qed.

(* ------------------------------------------------------------------------- *)
(** ** Roots of unity *)
(* ------------------------------------------------------------------------- *)

(** Telescoping of a geometric sum of phase factors. *)
Lemma Csum_cis_shift (n : nat) (a : R) :
  Cplus (Cmult (cis a) (Csum n (fun k => cis (INR k * a)))) Cone
  = Cplus (Csum n (fun k => cis (INR k * a))) (cis (INR n * a)).
Proof.
  induction n as [| n IH].
  - simpl. rewrite Rmult_0_l, cis_0. cring.
  - cbn [Csum]. rewrite Cmult_plus_distr_l, cis_plus.
    replace (a + INR n * a) with (INR (S n) * a) by (rewrite S_INR; ring).
    set (S1 := Csum n _) in *. set (w := cis (INR (S n) * a)).
    transitivity (Cplus (Cplus (Cmult (cis a) S1) Cone) w); [cring |].
    rewrite IH. cring.
Qed.

Lemma Csum_cis_zero (n : nat) (a : R) :
  cis (INR n * a) = Cone -> cis a <> Cone ->
  Csum n (fun k => cis (INR k * a)) = Czero.
Proof.
  intros Hn H1.
  pose proof (Csum_cis_shift n a) as H. rewrite Hn in H.
  set (S1 := Csum n _) in *.
  assert (Hz : Cmult (Cplus (cis a) (Copp Cone)) S1 = Czero).
  { destruct (cis a) as [c s], S1 as [u v]. cunfold.
    injection H as Hre Him. f_equal; lra. }
  apply Cmult_integral in Hz. destruct Hz as [Hz | Hz]; [| exact Hz].
  exfalso. apply H1. destruct (cis a) as [c s]. cunfold.
  injection Hz as Hre Him. f_equal; lra.
Qed.

(** Orthogonality of the DFT kernel. *)
Lemma Csum_cis_orth (n j l : nat) :
  (j < n)%nat -> (l < n)%nat ->
  Csum n (fun k => cis (2 * PI * (INR j - INR l) * INR k / INR n))
  = if (j =? l)%nat then RtoC (INR n) else Czero.
Proof.
  intros Hj Hl.
  assert (Hn : 0 < INR n) by (apply lt_0_INR; lia).
  destruct (Nat.eqb_spec j l) as [-> | Hne].
  - rewrite (Csum_ext _ _ (fun _ => Cone)).
    + rewrite Csum_const. cring.
    + intros k _. rewrite <- cis_0. f_equal. field. lra.
  - set (a := 2 * PI * (INR j - INR l) / INR n).
    rewrite (Csum_ext _ _ (fun k => cis (INR k * a))).
    + apply Csum_cis_zero.
      * replace (INR n * a) with (2 * PI * (INR j - INR l))
          by (unfold a; field; lra).
        apply cis_2PI_diff.
      * assert (HPI := PI_RGT_0).
        assert (Hj' : 0 <= INR j < INR n)
          by (split; [apply pos_INR | apply lt_INR; lia]).
        assert (Hl' : 0 <= INR l < INR n)
          by (split; [apply pos_INR | apply lt_INR; lia]).
        assert (Hd : INR j - INR l <> 0).
        { intros E. apply Hne, INR_eq. lra. }
        assert (Hq : - 1 < (INR j - INR l) / INR n < 1).
        { split.
          - apply Rmult_lt_reg_r with (INR n); [lra |].
            unfold Rdiv. rewrite Rmult_assoc, Rinv_l by lra. lra.
          - apply Rmult_lt_reg_r with (INR n); [lra |].
            unfold Rdiv. rewrite Rmult_assoc, Rinv_l by lra. lra. }
        replace a with (2 * PI * ((INR j - INR l) / INR n))
          by (unfold a; field; lra).
        apply cis_neq_1; [nra |].
        intros E. apply Rmult_integral in E. destruct E as [E | E]; [lra |].
        apply Hd. apply Rmult_eq_reg_r with (/ INR n).
        -- rewrite Rmult_0_l. exact E.
        -- apply Rinv_neq_0_compat. lra.
    + intros k _. f_equal. unfold a. field. lra.
Qed.

(* ------------------------------------------------------------------------- *)
(** ** The discrete Fourier transform pair *)
(* ------------------------------------------------------------------------- *)

Lemma nth_map_seq {A : Type} (g : nat -> A) (n i : nat) (d : A) :
  (i < n)%nat -> nth i (map g (seq 0 n)) d = g i.
Proof.
  intros Hi. rewrite nth_indep with (d' := g 0%nat)
    by (now rewrite length_map, length_seq).
  rewrite map_nth, seq_nth by assumption. reflexivity.
Qed.

Lemma dft_length (a : list complex) : length (dft a) = length a.
Proof. unfold dft. now rewrite length_map, length_seq. Qed.

Lemma idft_length (A : list complex) : length (idft A) = length A.
Proof. unfold idft. now rewrite length_map, length_seq. Qed.

Lemma dft_nth (a : list complex) (k : nat) :
  (k < length a)%nat ->
  nth k (dft a) Czero
  = Csum (length a) (fun q =>
      Cmult (nth q a Czero) (cis (- (2 * PI * INR q * INR k / INR (length a))))).
Proof.
  intros Hk. unfold dft. rewrite nth_map_seq by assumption.
  apply Csum_ext. intros q _. now rewrite Cexp_imag.
Qed.

Lemma idft_nth (A : list complex) (q : nat) :
  (q < length A)%nat ->
  nth q (idft A) Czero
  = Cscale (1 / INR (length A))
      (Csum (length A) (fun k =>
         Cmult (nth k A Czero) (cis (2 * PI * INR q * INR k / INR (length A))))).
Proof.
  intros Hq. unfold idft. rewrite nth_map_seq by assumption.
  f_equal. apply Csum_ext. intros k _. now rewrite Cexp_imag.
Qed.

(** Transforming with one kernel and then with the conjugate kernel scales
    by [n]: the core of both inversion formulas. *)
Lemma kernel_inverse (n : nat) (a : nat -> complex) (s : R) (q : nat) :
  s = 1 \/ s = -1 -> (q < n)%nat ->
  Csum n (fun k =>
    Cmult (Csum n (fun j => Cmult (a j) (cis (s * (2 * PI * INR j * INR k / INR n)))))
          (cis (- s * (2 * PI * INR q * INR k / INR n))))
  = Cscale (INR n) (a q).
Proof.
  intros Hs Hq.
  assert (Hn : 0 < INR n) by (apply lt_0_INR; lia).
  rewrite (Csum_ext _ _ (fun k => Csum n (fun j =>
             Cmult (a j)
               (cis (s * (2 * PI * INR j * INR k / INR n)
                     + - s * (2 * PI * INR q * INR k / INR n)))))).
  2:{ intros k _. rewrite <- Csum_mult_r. apply Csum_ext. intros j _.
      now rewrite <- Cmult_assoc, cis_plus. }
  rewrite Csum_swap.
  rewrite (Csum_ext _ _ (fun j =>
             Cmult (a j) (if (j =? q)%nat then RtoC (INR n) else Czero))).
  2:{ intros j Hj. rewrite Csum_mult_l. f_equal.
      destruct Hs as [-> | ->].
      - rewrite <- (Csum_cis_orth n j q) by assumption.
        apply Csum_ext. intros k _. f_equal. field. lra.
      - rewrite Nat.eqb_sym, <- (Csum_cis_orth n q j) by assumption.
        apply Csum_ext. intros k _. f_equal. field. lra. }
  rewrite (Csum_single n q); [rewrite Nat.eqb_refl; cring | assumption |].
  intros i _ Hi. apply Nat.eqb_neq in Hi. rewrite Hi. apply Cmult_0_r.
Qed.

Lemma Cscale_inv_INR (n : nat) (z : complex) :
  n <> 0%nat -> Cscale (1 / INR n) (Cscale (INR n) z) = z.
Proof.
  intros Hn. rewrite Cscale_Cscale.
  replace (INR n * (1 / INR n)) with 1
    by (field; apply not_0_INR; assumption).
  apply Cscale_1.
Qed.

(** The inverse kernel applied to the DFT of [a] gives [n * a]. *)
Lemma dft_kernel_inverse (a : list complex) (q : nat) :
  (q < length a)%nat ->
  Csum (length a) (fun k =>
    Cmult (nth k (dft a) Czero)
          (cis (2 * PI * INR q * INR k / INR (length a))))
  = Cscale (INR (length a)) (nth q a Czero).
Proof.
  intros Hq.
  rewrite <- (kernel_inverse (length a) (fun j => nth j a Czero) (-1) q)
    by (auto; lia).
  apply Csum_ext. intros k Hk. rewrite dft_nth by assumption. f_equal.
  - apply Csum_ext. intros j _. do 2 f_equal. ring.
  - f_equal. ring.
Qed.

(** IDFT after DFT is the identity. *)
Lemma idft_dft (a : list complex) : idft (dft a) = a.
Proof.
  apply nth_ext with (d := Czero) (d' := Czero).
  - now rewrite idft_length, dft_length.
  - intros q Hq. rewrite idft_length, dft_length in Hq.
    rewrite idft_nth, dft_length by (now rewrite dft_length).
    rewrite dft_kernel_inverse by assumption.
    apply Cscale_inv_INR. lia.
Qed.

(** DFT after IDFT is the identity. *)
Lemma dft_idft (A : list complex) : dft (idft A) = A.
Proof.
  apply nth_ext with (d := Czero) (d' := Czero).
  - now rewrite dft_length, idft_length.
  - intros k Hk. rewrite dft_length, idft_length in Hk.
    rewrite dft_nth, idft_length by (now rewrite idft_length).
    rewrite (Csum_ext _ _ (fun q => Cscale (1 / INR (length A))
      (Cmult (Csum (length A) (fun j =>
               Cmult (nth j A Czero)
                 (cis (1 * (2 * PI * INR j * INR q / INR (length A))))))
            (cis (- (1) * (2 * PI * INR k * INR q / INR (length A))))))).
    + rewrite Csum_scale, kernel_inverse by (auto; lia).
      apply Cscale_inv_INR. lia.
    + intros q Hq. rewrite idft_nth by assumption.
      rewrite Cscale_mult_l. f_equal.
      * f_equal. apply Csum_ext. intros j _. do 2 f_equal. field.
        apply not_0_INR. lia.
      * f_equal. field. apply not_0_INR. lia.
Qed.

Lemma Cscale_mult_r (r : R) (z w : complex) :
  Cscale r (Cmult z w) = Cmult z (Cscale r w).
Proof. cring. Qed.

(** Parseval: the DFT multiplies the sum of squared magnitudes by [n]. *)
Lemma dft_parseval (a : list complex) :
  Rsum (map (fun z => Cabs z ^ 2) (dft a))
  = INR (length a) * Rsum (map (fun z => Cabs z ^ 2) a).
Proof.
  set (n := length a).
  assert (H : RtoC (Rsum (map (fun z => Cabs z ^ 2) (dft a)))
              = Cscale (INR n) (RtoC (Rsum (map (fun z => Cabs z ^ 2) a)))).
  { rewrite !Rsum_abs_sq, dft_length. fold n.
    set (w := fun q k => cis (- (2 * PI * INR q * INR k / INR n))).
    rewrite (Csum_ext _ _ (fun k => Csum n (fun q =>
               Cmult (nth q a Czero)
                     (Cmult (w q k) (Cconj (nth k (dft a) Czero)))))).
    2:{ intros k Hk. rewrite (dft_nth a k) at 1 by assumption. fold n.
        rewrite <- Csum_mult_r. apply Csum_ext. intros q _.
        unfold w. now rewrite Cmult_assoc. }
    rewrite Csum_swap, <- Csum_scale.
    apply Csum_ext. intros q Hq.
    rewrite Csum_mult_l, Cscale_mult_r. f_equal.
    unfold n.
    rewrite <- Cconj_scale, <- (dft_kernel_inverse a q) by assumption.
    fold n. rewrite <- Csum_conj. apply Csum_ext. intros k _.
    rewrite Cconj_mult, cis_conj. unfold w. apply Cmult_comm. }
  apply (f_equal fst) in H. unfold RtoC, Cscale in H. cbn [fst] in H.
  rewrite H. ring.
Qed.

(** The IDFT divides the sum of squared magnitudes by [n]. *)
Lemma idft_parseval (A : list complex) :
  INR (length A) * Rsum (map (fun z => Cabs z ^ 2) (idft A))
  = Rsum (map (fun z => Cabs z ^ 2) A).
Proof.
  rewrite <- (idft_length A), <- dft_parseval, dft_idft. reflexivity.
Qed.

(* ------------------------------------------------------------------------- *)
(** ** Elementwise products with phase factors *)
(* ------------------------------------------------------------------------- *)

Lemma zipWith_length {A B D : Type} (g : A -> B -> D) (a : list A) (b : list B) :
  length b = length a -> length (zipWith g a b) = length a.
Proof.
  revert b. induction a as [| u a IH]; intros [| v b] H; simpl in *;
    try reflexivity; try discriminate.
  f_equal. apply IH. lia.
Qed.

Lemma imul_same_length (a b : list complex) :
  length b = length a -> imul a b = Some (zipWith Cmult a b).
Proof. intros H. unfold imul. now rewrite H, Nat.eqb_refl. Qed.

(** Multiplying by phase factors keeps the sum of squared magnitudes. *)
Lemma phase_mul_abs_sq (g : R -> R) (a : list complex) (kv : list R) :
  length kv = length a ->
  Rsum (map (fun z => Cabs z ^ 2) (zipWith Cmult a (map (fun k => cis (g k)) kv)))
  = Rsum (map (fun z => Cabs z ^ 2) a).
Proof.
  revert kv. induction a as [| u a IH]; intros [| v kv] H; simpl in *;
    try reflexivity; try discriminate.
  unfold Rsum in *. cbn [fold_right].
  rewrite IH by lia. f_equal.
  change (Cabs (Cmult u (cis (g v))) ^ 2 = Cabs u ^ 2).
  rewrite Cabs_sq_mult, Cabs_sq_cis. ring.
Qed.

(** Two phase multiplications compose by adding the arguments. *)
Lemma phase_mul_compose (g h : R -> R) (a : list complex) (kv : list R) :
  zipWith Cmult (zipWith Cmult a (map (fun k => cis (g k)) kv))
                (map (fun k => cis (h k)) kv)
  = zipWith Cmult a (map (fun k => cis (g k + h k)) kv).
Proof.
  revert kv. induction a as [| u a IH]; intros [| v kv]; simpl;
    try reflexivity.
  now rewrite IH, <- Cmult_assoc, cis_plus.
Qed.

(** A phase multiplication with all arguments zero changes nothing. *)
Lemma phase_mul_zero (g : R -> R) (a : list complex) (kv : list R) :
  length kv = length a -> (forall k, g k = 0) ->
  zipWith Cmult a (map (fun k => cis (g k)) kv) = a.
Proof.
  intros H Hg. revert kv H.
  induction a as [| u a IH]; intros [| v kv] H; simpl in *;
    try reflexivity; try discriminate.
  rewrite IH by lia. now rewrite Hg, cis_0, Cmult_1_r.
Qed.

(** The exponent [-1j * r / d] of the propagators gives a phase factor. *)
Lemma Cexp_phase (r d : R) :
  Cexp (Cdiv_real (Cscale r (Copp Ci)) d) = cis (- r / d).
Proof.
  unfold Cexp, Cdiv_real, Cscale, Copp, Ci, cis. cbn [fst snd].
  replace (- 0 * r / d) with 0 by (unfold Rdiv; ring).
  replace (- (1) * r / d) with (- r / d) by (unfold Rdiv; ring).
  now rewrite exp_0, !Rmult_1_l.
Qed.

(* ------------------------------------------------------------------------- *)
(** ** The propagators as total functions *)
(* ------------------------------------------------------------------------- *)

Lemma fftfreq_Some :
  Nx <> 0%nat -> dx <> 0 ->
  exists freq, fftfreq Nx dx = Some freq /\ length freq = Nx.
Proof.
  intros HN Hd. unfold fftfreq.
  destruct (Req_dec_T (INR Nx * dx) 0) as [E | _].
  - exfalso. apply Rmult_integral in E. destruct E as [E | E].
    + now apply (not_0_INR Nx).
    + contradiction.
  - eexists. split; [reflexivity |]. now rewrite length_map, length_seq.
Qed.

Lemma k_vec_length : Nx <> 0%nat -> dx <> 0 -> length k_vec = Nx.
Proof.
  intros HN Hd. unfold k_vec.
  destruct (fftfreq_Some HN Hd) as (freq & -> & Hlen).
  now rewrite length_map.
Qed.

(** On an array of the grid's size [Top] does not raise, and is: DFT, one
    phase factor per mode, IDFT. *)
Lemma Top_total (psi : list complex) (tau : R) :
  length psi = Nx -> Nx <> 0%nat -> dx <> 0 ->
  Top psi tau = Some (Top_fn psi tau).
Proof.
  intros Hlen HN Hd. unfold Top_fn.
  pose proof (k_vec_length HN Hd) as Hk.
  unfold Top, k_vec in *.
  destruct (fftfreq_Some HN Hd) as (freq & -> & Hfreq).
  destruct psi as [| z psi]; [simpl in Hlen; congruence |].
  cbn [fft bind].
  rewrite (map_ext _ (fun k => cis (- (hbar * k ^ 2 * tau) / (2 * m))))
    by (intros; apply Cexp_phase).
  rewrite imul_same_length
    by (rewrite dft_length, !length_map; congruence).
  cbn [bind]. unfold ifft.
  destruct (zipWith Cmult _ _) eqn:E; [| reflexivity].
  apply (f_equal (@length _)) in E.
  rewrite zipWith_length in E
    by (rewrite dft_length, !length_map; congruence).
  rewrite dft_length in E. discriminate.
Qed.

Lemma Top_length (psi psi' : list complex) (tau : R) :
  length psi = Nx -> Nx <> 0%nat -> dx <> 0 ->
  Top psi tau = Some psi' -> length psi' = Nx.
Proof.
  intros Hlen HN Hd H. rewrite Top_total in H by assumption.
  injection H as <-. unfold Top_fn.
  rewrite idft_length, zipWith_length, dft_length; [assumption |].
  rewrite dft_length, length_map, k_vec_length; congruence.
Qed.

(** [Top] keeps the discrete norm. *)
Lemma Top_norm (psi psi' : list complex) (tau : R) :
  length psi = Nx -> Nx <> 0%nat -> dx <> 0 ->
  Top psi tau = Some psi' -> norm psi' = norm psi.
Proof.
  intros Hlen HN Hd H. rewrite Top_total in H by assumption.
  injection H as <-. unfold norm, Top_fn. f_equal.
  set (Y := zipWith Cmult _ _).
  assert (HY : length Y = Nx).
  { unfold Y. rewrite zipWith_length, dft_length; [assumption |].
    rewrite dft_length, length_map, k_vec_length; congruence. }
  apply Rmult_eq_reg_l with (INR Nx); [| now apply not_0_INR].
  rewrite <- HY at 1. rewrite idft_parseval. unfold Y.
  rewrite phase_mul_abs_sq
    by (rewrite dft_length, k_vec_length; congruence).
  rewrite dft_parseval. now rewrite Hlen.
Qed.

(** Two kinetic steps compose into one of the summed duration. *)
Lemma Top_compose (psi psi' : list complex) (a b : R) :
  length psi = Nx -> Nx <> 0%nat -> dx <> 0 ->
  Top psi a = Some psi' -> Top psi' b = Top psi (a + b).
Proof.
  intros Hlen HN Hd H.
  pose proof (Top_length _ _ _ Hlen HN Hd H) as Hlen'.
  rewrite Top_total in H by assumption. injection H as <-.
  rewrite !Top_total by assumption. unfold Top_fn.
  rewrite dft_idft, phase_mul_compose.
  do 3 f_equal. apply map_ext. intros k. f_equal. unfold Rdiv. ring.
Qed.

(** A kinetic step of duration zero returns its argument. *)
Lemma Top_zero (psi : list complex) :
  length psi = Nx -> Nx <> 0%nat -> dx <> 0 -> Top psi 0 = Some psi.
Proof.
  intros Hlen HN Hd. rewrite Top_total by assumption. unfold Top_fn.
  rewrite phase_mul_zero.
  - now rewrite idft_dft.
  - rewrite dft_length, k_vec_length; congruence.
  - intros k. unfold Rdiv. ring.
Qed.

(* ------------------------------------------------------------------------- *)
(** ** The potential *)
(* ------------------------------------------------------------------------- *)

Lemma Rgtb_true (u v : R) : v < u -> Rgtb u v = true.
Proof. intros H. unfold Rgtb. destruct (Rlt_dec v u); [reflexivity | lra]. Qed.

Lemma Rgtb_false (u v : R) : u <= v -> Rgtb u v = false.
Proof. intros H. unfold Rgtb. destruct (Rlt_dec v u); [lra | reflexivity]. Qed.

Lemma Rleb_true (u v : R) : u <= v -> Rleb u v = true.
Proof. intros H. unfold Rleb. destruct (Rle_dec u v); [reflexivity | lra]. Qed.

Lemma Rleb_false (u v : R) : v < u -> Rleb u v = false.
Proof. intros H. unfold Rleb. destruct (Rle_dec u v); [lra | reflexivity]. Qed.

(** The three mask assignments on one cell give the region rule, whatever
    the cell held before. *)
Lemma mask_chain_region (B xi old : R) :
  mask_set (Rleb (Rabs xi) 0.04) B
    (mask_set (Rleb (Rabs xi) 0.07 && Rgtb (Rabs xi) 0.04) 0.0
       (mask_set (Rgtb (Rabs xi) 0.07) 1e6 old))
  = V_region B xi.
Proof.
  unfold V_region.
  destruct (Rlt_dec 0.07 (Rabs xi)) as [H7 | H7].
  - rewrite (Rgtb_true _ 0.07), (Rgtb_true _ 0.04), (Rleb_false _ 0.07),
      (Rleb_false _ 0.04) by lra.
    reflexivity.
  - destruct (Rlt_dec 0.04 (Rabs xi)) as [H4 | H4].
    + rewrite (Rgtb_false _ 0.07), (Rleb_true _ 0.07), (Rgtb_true _ 0.04),
        (Rleb_false _ 0.04) by lra.
      simpl. lra.
    + rewrite (Rgtb_false _ 0.07), (Rleb_true _ 0.07), (Rgtb_false _ 0.04),
        (Rleb_true _ 0.04) by lra.
      reflexivity.
Qed.

Lemma V_scalar_region (xi t B : R) (type : nat) :
  V_scalar xi t B type = V_region B xi.
Proof. unfold V_scalar. apply mask_chain_region. Qed.

Lemma mask_chain_map (B : R) (xs junk : list R) :
  length junk = length xs ->
  mask_assign (map (fun xi => Rleb (Rabs xi) 0.04) xs) B
    (mask_assign
       (zipWith andb (map (fun xi => Rleb (Rabs xi) 0.07) xs)
                     (map (fun xi => Rgtb (Rabs xi) 0.04) xs)) 0.0
       (mask_assign (map (fun xi => Rgtb (Rabs xi) 0.07) xs) 1e6 junk))
  = map (V_region B) xs.
Proof.
  revert junk. unfold mask_assign.
  induction xs as [| xi xs IH]; intros [| old junk] H; simpl in *;
    try reflexivity; try discriminate.
  rewrite IH by lia. f_equal. apply mask_chain_region.
Qed.

(** [V] on an array is the region rule at every position. *)
Lemma V_map (xs : list R) (t B : R) (type : nat) :
  V xs t B type = map (V_region B) xs.
Proof.
  unfold V. apply mask_chain_map.
  unfold empty_like. now rewrite length_map, length_seq.
Qed.

Lemma V_length (xs : list R) (t B : R) (type : nat) :
  length (V xs t B type) = length xs.
Proof. now rewrite V_map, length_map. Qed.

(** On a grid of the wavefunction's size [Vop] does not raise, and is one
    phase factor per grid point. *)
Lemma Vop_total (psi : list complex) (xs : list R) (t tau : R) :
  length xs = length psi ->
  Vop psi xs t tau
  = Some (zipWith Cmult psi
            (map (fun v => cis (- (v * tau) / hbar)) (V xs (t + tau / 2) V0 6))).
Proof.
  intros Hlen. unfold Vop.
  rewrite (map_ext _ (fun v => cis (- (v * tau) / hbar))).
  - apply imul_same_length. now rewrite length_map, V_length.
  - intros v. rewrite Cscale_Cscale. apply Cexp_phase.
Qed.

Lemma Vop_length (psi psi' : list complex) (xs : list R) (t tau : R) :
  length xs = length psi ->
  Vop psi xs t tau = Some psi' -> length psi' = length psi.
Proof.
  intros Hlen H. rewrite Vop_total in H by assumption. injection H as <-.
  apply zipWith_length. now rewrite length_map, V_length.
Qed.

(** [Vop] keeps the discrete norm. *)
Lemma Vop_norm (psi psi' : list complex) (xs : list R) (t tau : R) :
  length xs = length psi ->
  Vop psi xs t tau = Some psi' -> norm psi' = norm psi.
Proof.
  intros Hlen H. rewrite Vop_total in H by assumption. injection H as <-.
  unfold norm. f_equal. apply phase_mul_abs_sq. now rewrite V_length.
Qed.

(** A potential step of duration zero returns its argument. *)
Lemma Vop_zero (psi : list complex) (xs : list R) (t : R) :
  length xs = length psi -> Vop psi xs t 0 = Some psi.
Proof.
  intros Hlen. rewrite Vop_total by assumption. f_equal.
  apply phase_mul_zero.
  - now rewrite V_length.
  - intros k. unfold Rdiv. ring.
Qed.

(** The potential ignores its time argument. *)
Lemma Vop_time_independent (psi : list complex) (xs : list R) (t t' tau : R) :
  Vop psi xs t tau = Vop psi xs t' tau.
Proof. unfold Vop. now rewrite !V_map. Qed.

(* ------------------------------------------------------------------------- *)
(** ** The spatial grid *)
(* ------------------------------------------------------------------------- *)

Lemma set_last_length {A : Type} (v : A) (l : list A) :
  length (set_last v l) = length l.
Proof.
  destruct l as [| u l]; [reflexivity |].
  unfold set_last.
  rewrite removelast_firstn_len, length_app, length_firstn. simpl. lia.
Qed.

Lemma set_last_nth {A : Type} (v d : A) (l : list A) (i : nat) :
  (i < length l)%nat ->
  nth i (set_last v l) d = if (i =? length l - 1)%nat then v else nth i l d.
Proof.
  intros Hi. destruct l as [| u l]; [simpl in Hi; lia |].
  unfold set_last. rewrite removelast_firstn_len.
  assert (Hlen : length (firstn (Nat.pred (length (u :: l))) (u :: l))
                 = (length (u :: l) - 1)%nat)
    by (rewrite length_firstn; lia).
  destruct (Nat.eqb_spec i (length (u :: l) - 1)) as [-> | Hne].
  - rewrite app_nth2 by lia. rewrite Hlen, Nat.sub_diag. reflexivity.
  - rewrite app_nth1 by lia. rewrite nth_firstn.
    destruct (Nat.ltb_spec i (Nat.pred (length (u :: l)))); [reflexivity | lia].
Qed.

Lemma linspace_length (a b : R) (n : nat) : length (linspace a b n) = n.
Proof.
  unfold linspace.
  destruct (1 <? n)%nat; [rewrite set_last_length |];
    destruct (0 <? n - 1)%nat; now rewrite !length_map, length_seq.
Qed.

(** With at least two samples, sample [i] is [start + i * step] for the
    step [(stop - start) / (num - 1)]. *)
Lemma linspace_nth (a b : R) (n i : nat) :
  (2 <= n)%nat -> (i < n)%nat ->
  nth i (linspace a b n) 0 = a + INR i * ((b - a) / INR (n - 1)).
Proof.
  intros Hn Hi. unfold linspace.
  destruct (Nat.ltb_spec 1 n) as [_ | ?]; [| lia].
  destruct (Nat.ltb_spec 0 (n - 1)) as [_ | ?]; [| lia].
  assert (Hd : INR (n - 1) <> 0) by (apply not_0_INR; lia).
  rewrite set_last_nth by (now rewrite !length_map, length_seq).
  rewrite !length_map, length_seq.
  destruct (Nat.eqb_spec i (n - 1)) as [-> | Hne].
  - field. exact Hd.
  - rewrite map_map, nth_map_seq by assumption. ring.
Qed.

Lemma x_length : length x = Nx.
Proof. apply linspace_length. Qed.

(** Consecutive grid points are [L / (Nx - 1)] apart. *)
Lemma x_spacing (i : nat) :
  (S i < Nx)%nat ->
  nth (S i) x 0 - nth i x 0 = L / INR (Nx - 1).
Proof.
  intros Hi. unfold x. rewrite !linspace_nth by lia.
  rewrite S_INR. field. apply not_0_INR. lia.
Qed.

(** The grid is symmetric about zero. *)
Lemma x_symmetric (i : nat) :
  (2 <= Nx)%nat -> (i < Nx)%nat ->
  nth (Nx - 1 - i) x 0 = - nth i x 0.
Proof.
  intros HN Hi. unfold x. rewrite !linspace_nth by lia.
  rewrite !minus_INR by lia.
  assert (INR Nx - INR 1 <> 0).
  { rewrite <- minus_INR by lia. apply not_0_INR. lia. }
  field. assumption.
Qed.

(* ------------------------------------------------------------------------- *)
(** ** The initial state *)
(* ------------------------------------------------------------------------- *)

Lemma Rsum_pos (l : list R) :
  l <> [] -> (forall p, In p l -> 0 < p) -> 0 < Rsum l.
Proof.
  induction l as [| u [| v t] IH]; intros Hne Hpos; [congruence | |].
  - simpl. specialize (Hpos u (or_introl eq_refl)). lra.
  - change (0 < u + Rsum (v :: t)).
    assert (0 < u) by (apply Hpos; now left).
    assert (0 < Rsum (v :: t)).
    { apply IH; [discriminate |]. intros p Hp. apply Hpos. now right. }
    lra.
Qed.

Lemma Rsum_map_div (g : R -> R) (c : R) (l : list R) :
  Rsum (map (fun p => g p / c) l) = Rsum (map g l) / c.
Proof.
  induction l as [| u t IH]; simpl.
  - unfold Rdiv. ring.
  - unfold Rsum in *. simpl. rewrite IH. unfold Rdiv. ring.
Qed.

Lemma norm_real_gaussian_pos :
  Nx <> 0%nat -> 0 < L -> 0 < norm_real (map gaussian x).
Proof.
  intros HN HL. unfold norm_real. apply Rmult_lt_0_compat.
  - apply Rsum_pos.
    + intros E. apply (f_equal (@length _)) in E.
      rewrite !length_map, x_length in E. simpl in E. contradiction.
    + intros p Hp. rewrite map_map in Hp. apply in_map_iff in Hp.
      destruct Hp as (xi & <- & _). rewrite pow2_abs.
      assert (0 < gaussian xi) by apply exp_pos. nra.
  - unfold dx. apply Rdiv_lt_0_compat; [assumption |].
    apply lt_0_INR. lia.
Qed.

(** The normalised Gaussian has discrete norm 1. *)
Lemma psi_init_norm : Nx <> 0%nat -> 0 < L -> norm_real psi_init = 1.
Proof.
  intros HN HL.
  pose proof (norm_real_gaussian_pos HN HL) as Hpos.
  unfold psi_init. set (g := map gaussian x) in *.
  set (n0 := sqrt (norm_real g)).
  assert (Hn0 : n0 ^ 2 = norm_real g) by (apply pow2_sqrt; lra).
  assert (Hn0' : n0 <> 0).
  { assert (0 < n0) by (apply sqrt_lt_R0; assumption). lra. }
  unfold norm_real at 1. rewrite map_map.
  rewrite (map_ext _ (fun p => Rabs p ^ 2 / n0 ^ 2)).
  - rewrite Rsum_map_div, Hn0. unfold norm_real in *.
    set (S0 := Rsum _) in *.
    assert (S0 <> 0) by (intros E; rewrite E in Hpos; lra).
    assert (dx <> 0) by (intros E; rewrite E in Hpos; lra).
    field. split; assumption.
  - intros p. rewrite !pow2_abs. field. assumption.
Qed.

Lemma psi_init_length : length psi_init = Nx.
Proof. unfold psi_init. now rewrite !length_map, x_length. Qed.

Lemma set_at_0 {A : Type} (v u : A) (l : list A) :
  set_at 0 v (u :: l) = Some (v :: l).
Proof. reflexivity. Qed.

(** [init] raises only when [f] is zero, and otherwise returns the
    normalised Gaussian and buffers of [Nt/f + 1] slots with slot 0 filled. *)
Lemma init_total :
  f <> 0%nat ->
  init = Some (map (fun p => Rabs p ^ 2) psi_init :: repeat (repeat 0 Nx) (Nt / f),
               repeat 0 (Nt / f + 1),
               norm_real psi_init :: repeat 0 (Nt / f),
               psi_init).
Proof.
  intros Hf. unfold init.
  destruct (Nat.eqb_spec f 0) as [? | _]; [contradiction |].
  fold gaussian. fold (norm_real (map gaussian x)). fold psi_init.
  rewrite Nat.add_1_r. cbn [repeat]. unfold set_row. cbn [nth_error bind].
  rewrite length_map, psi_init_length, repeat_length, Nat.eqb_refl.
  cbn [bind]. rewrite !set_at_0. cbn [bind]. reflexivity.
Qed.

(* ------------------------------------------------------------------------- *)
(** ** Buffer writes *)
(* ------------------------------------------------------------------------- *)

Lemma set_at_in_range {A : Type} (i : nat) (v : A) (l : list A) :
  (i < length l)%nat -> set_at i v l = Some (upd i v l).
Proof.
  revert i. induction l as [| u l IH]; intros [| i] Hi; simpl in Hi;
    try lia; [reflexivity |].
  cbn [set_at]. rewrite IH by lia. reflexivity.
Qed.

Lemma upd_length {A : Type} (i : nat) (v : A) (l : list A) :
  (i < length l)%nat -> length (upd i v l) = length l.
Proof.
  intros Hi. unfold upd.
  rewrite length_app, length_firstn. cbn [length]. rewrite length_skipn. lia.
Qed.

Lemma upd_nth_error_same {A : Type} (i : nat) (v : A) (l : list A) :
  (i < length l)%nat -> nth_error (upd i v l) i = Some v.
Proof.
  intros Hi. unfold upd.
  rewrite nth_error_app2 by (rewrite length_firstn; lia).
  rewrite length_firstn.
  replace (i - Nat.min i (length l))%nat with 0%nat by lia. reflexivity.
Qed.

Lemma upd_nth_error_other {A : Type} (i j : nat) (v : A) (l : list A) :
  (i < length l)%nat -> j <> i -> nth_error (upd i v l) j = nth_error l j.
Proof.
  intros Hi Hne. unfold upd.
  destruct (Nat.lt_ge_cases j i) as [Hlt | Hge].
  - rewrite nth_error_app1 by (rewrite length_firstn; lia).
    rewrite nth_error_firstn.
    destruct (Nat.ltb_spec j i); [reflexivity | lia].
  - rewrite nth_error_app2 by (rewrite length_firstn; lia).
    rewrite length_firstn.
    replace (j - Nat.min i (length l))%nat with (S (j - S i)) by lia.
    cbn [nth_error]. rewrite nth_error_skipn. f_equal. lia.
Qed.

Lemma upd_Forall {A : Type} (P : A -> Prop) (i : nat) (v : A) (l : list A) :
  P v -> Forall P l -> Forall P (upd i v l).
Proof.
  intros Hv Hl. revert i. unfold upd.
  induction Hl as [| u l Hu Hl IH]; intros [| i]; cbn [firstn skipn app].
  - now constructor.
  - now constructor.
  - constructor; assumption.
  - constructor; [assumption | apply IH].
Qed.

Lemma set_row_in_range (i : nat) (v : list R) (rows : list (list R)) (n : nat) :
  (i < length rows)%nat -> Forall (fun r => length r = n) rows ->
  length v = n ->
  set_row i v rows = Some (upd i v rows).
Proof.
  intros Hi Hrows Hv. unfold set_row.
  destruct (nth_error rows i) as [row |] eqn:E.
  - cbn [bind].
    assert (Hrow : length row = n).
    { rewrite Forall_forall in Hrows. apply Hrows.
      eapply nth_error_In; eassumption. }
    rewrite Hv, Hrow, Nat.eqb_refl. cbn [bind].
    now apply set_at_in_range.
  - apply nth_error_None in E. lia.
Qed.

(* ------------------------------------------------------------------------- *)
(** ** The integrator *)
(* ------------------------------------------------------------------------- *)

Section Wellformed.

(** The grid is not empty and its step is not zero. *)
Hypothesis Nx_nonzero : Nx <> 0%nat.
Hypothesis dx_nonzero : dx <> 0.

Lemma Top_eq (psi : list complex) (tau : R) :
  length psi = Nx -> Top psi tau = Some (Top_fn psi tau).
Proof. intros H. now apply Top_total. Qed.

Lemma Top_fn_length (psi : list complex) (tau : R) :
  length psi = Nx -> length (Top_fn psi tau) = Nx.
Proof.
  intros H. apply (Top_length psi _ tau); try assumption. now apply Top_eq.
Qed.

Lemma Top_fn_norm (psi : list complex) (tau : R) :
  length psi = Nx -> norm (Top_fn psi tau) = norm psi.
Proof.
  intros H. apply (Top_norm psi _ tau); try assumption. now apply Top_eq.
Qed.

Lemma Top_fn_compose (psi : list complex) (a b : R) :
  length psi = Nx -> Top_fn (Top_fn psi a) b = Top_fn psi (a + b).
Proof.
  intros H.
  pose proof (Top_compose psi (Top_fn psi a) a b H Nx_nonzero dx_nonzero
                (Top_eq psi a H)) as E.
  rewrite !Top_eq in E by (try apply Top_fn_length; assumption).
  now injection E.
Qed.

Lemma Top_fn_zero (psi : list complex) : length psi = Nx -> Top_fn psi 0 = psi.
Proof.
  intros H. pose proof (Top_zero psi H Nx_nonzero dx_nonzero) as E.
  rewrite Top_eq in E by assumption. now injection E.
Qed.

Lemma Vop_eq (psi : list complex) (t tau : R) :
  length psi = Nx -> Vop psi x t tau = Some (Vop_fn psi tau).
Proof.
  intros H. rewrite Vop_total by (now rewrite x_length).
  now rewrite V_map.
Qed.

Lemma Vop_fn_length (psi : list complex) (tau : R) :
  length psi = Nx -> length (Vop_fn psi tau) = Nx.
Proof.
  intros H. rewrite <- H.
  apply (Vop_length psi _ x 0 tau); [now rewrite x_length |].
  now apply Vop_eq.
Qed.

Lemma Vop_fn_norm (psi : list complex) (tau : R) :
  length psi = Nx -> norm (Vop_fn psi tau) = norm psi.
Proof.
  intros H. apply (Vop_norm psi _ x 0 tau); [now rewrite x_length |].
  now apply Vop_eq.
Qed.

Lemma inner_fn_length (n : nat) (psi : list complex) :
  length psi = Nx -> length (inner_fn n psi) = Nx.
Proof.
  revert psi. induction n as [| n IH]; intros psi H; [assumption |].
  cbn [inner_fn]. apply IH, Vop_fn_length, Top_fn_length, H.
Qed.

Lemma inner_fn_norm (n : nat) (psi : list complex) :
  length psi = Nx -> norm (inner_fn n psi) = norm psi.
Proof.
  revert psi. induction n as [| n IH]; intros psi H; [reflexivity |].
  cbn [inner_fn]. rewrite IH by apply Vop_fn_length, Top_fn_length, H.
  rewrite Vop_fn_norm by apply Top_fn_length, H.
  now apply Top_fn_norm.
Qed.

(** The inner loop does not raise; it advances the clock by [n * dt]. *)
Lemma inner_loop_total (n : nat) (t : R) (psi : list complex) :
  length psi = Nx ->
  inner_loop n t psi = Some (t + INR n * dt, inner_fn n psi).
Proof.
  revert t psi. induction n as [| n IH]; intros t psi H.
  - simpl. do 2 f_equal. ring.
  - cbn [inner_loop inner_fn].
    rewrite Top_eq by assumption. cbn [bind].
    rewrite Vop_eq by now apply Top_fn_length. cbn [bind].
    rewrite IH by now apply Vop_fn_length, Top_fn_length.
    rewrite S_INR. do 2 f_equal. ring.
Qed.

Lemma outer_fn_length (psi : list complex) :
  length psi = Nx -> length (outer_fn psi) = Nx.
Proof.
  intros H. apply Top_fn_length, inner_fn_length, Top_fn_length, H.
Qed.

Lemma outer_fn_norm (psi : list complex) :
  length psi = Nx -> norm (outer_fn psi) = norm psi.
Proof.
  intros H. unfold outer_fn.
  rewrite Top_fn_norm by apply inner_fn_length, Top_fn_length, H.
  rewrite inner_fn_norm by apply Top_fn_length, H.
  now apply Top_fn_norm.
Qed.

(** One outer iteration does not raise when slot [nt + 1] exists; it writes
    that slot of the three buffers, in the order norm, density, time. *)
Lemma outer_body_total (M nt : nat) (psi : list complex) (b : buffers)
    (log : list event) (t0 : R) :
  length psi = Nx -> bufs_shape M b -> (nt + 1 < M)%nat ->
  nth_error (time_arr b) nt = Some t0 ->
  outer_body nt (psi, b, log)
  = Some (outer_fn psi,
          mkBuffers
            (upd (nt + 1) (map (fun z => Cabs z ^ 2) (outer_fn psi)) (density_prob b))
            (upd (nt + 1) (t0 + INR f * dt) (time_arr b))
            (upd (nt + 1) (norm (outer_fn psi)) (norm_arr b)),
          log ++ writes_of nt).
Proof.
  intros Hpsi (HD & Hrows & HT & HN) Hnt Ht0.
  unfold outer_body.
  rewrite Top_eq by assumption. cbn [bind].
  rewrite Ht0. cbn [bind].
  rewrite inner_loop_total by now apply Top_fn_length. cbn [bind].
  rewrite Top_eq by now apply inner_fn_length, Top_fn_length. cbn [bind].
  fold (outer_fn psi).
  rewrite set_at_in_range by lia. cbn [bind].
  rewrite (set_row_in_range _ _ _ Nx)
    by (try assumption; try lia; rewrite length_map; now apply outer_fn_length).
  cbn [bind].
  rewrite set_at_in_range by lia. cbn [bind]. reflexivity.
Qed.

End Wellformed.

Section Run.

Hypothesis Nx_nonzero : Nx <> 0%nat.
Hypothesis dx_nonzero : dx <> 0.

(** The number of slots of each buffer, and the norm the run starts with. *)
Variable M : nat.
Variable c : R.

Lemma run_inv_step (a : nat) (st : run_state) :
  run_inv M c a st -> (a + 1 < M)%nat ->
  exists st', outer_body a st = Some st' /\ run_inv M c (S a) st'.
Proof.
  destruct st as [[psi b] log].
  intros (Hpsi & Hshape & Hnorm & Htime & Hnrm & Hlog) Ha.
  pose proof Hshape as (HD & Hrows & HT & HN).
  eexists. split.
  - apply (outer_body_total Nx_nonzero dx_nonzero M); try eassumption.
    apply Htime. lia.
  - cbn [run_inv]. repeat split; cbn [density_prob time_arr norm_arr].
    + now apply outer_fn_length.
    + rewrite upd_length; lia.
    + apply upd_Forall; [| assumption].
      rewrite length_map. now apply outer_fn_length.
    + rewrite upd_length; lia.
    + rewrite upd_length; lia.
    + rewrite outer_fn_norm; assumption.
    + intros k Hk. destruct (Nat.eq_dec k (a + 1)) as [-> | Hne].
      * rewrite upd_nth_error_same by lia. f_equal.
        rewrite plus_INR. simpl. ring.
      * rewrite upd_nth_error_other by lia. apply Htime. lia.
    + intros k Hk. destruct (Nat.eq_dec k (a + 1)) as [-> | Hne].
      * rewrite upd_nth_error_same by lia. f_equal.
        rewrite outer_fn_norm; assumption.
      * rewrite upd_nth_error_other by lia. apply Hnrm. lia.
    + rewrite seq_S, flat_map_app, Hlog. reflexivity.
Qed.

(** The outer loop over [a, a+1, ..., a+n-1] does not raise while the slots
    exist, and keeps the invariant. *)
Lemma outer_loop_total (n a : nat) (st : run_state) :
  run_inv M c a st -> (a + n < M)%nat ->
  exists st', outer_loop (seq a n) st = Some st' /\ run_inv M c (a + n) st'.
Proof.
  revert a st. induction n as [| n IH]; intros a st Hinv Hn.
  - exists st. split; [reflexivity |]. now rewrite Nat.add_0_r.
  - destruct (run_inv_step a st Hinv) as (st1 & E1 & Hinv1); [lia |].
    destruct (IH (S a) st1 Hinv1) as (st2 & E2 & Hinv2); [lia |].
    exists st2. split.
    + cbn [seq outer_loop]. rewrite E1. exact E2.
    + now rewrite Nat.add_succ_r.
Qed.

End Run.

(** [runsplit] does not raise on buffers of [Nt/f + 1] slots whose first
    time is 0 and first norm is the norm of [psi]. *)
Lemma runsplit_total (b : buffers) (psi : list complex) :
  Nx <> 0%nat -> dx <> 0 -> f <> 0%nat ->
  length psi = Nx -> bufs_shape (Nt / f + 1) b ->
  nth_error (time_arr b) 0 = Some 0 ->
  nth_error (norm_arr b) 0 = Some (norm psi) ->
  exists st, runsplit b psi = Some st
             /\ run_inv (Nt / f + 1) (norm psi) (Nt / f) st.
Proof.
  intros HN Hd Hf Hpsi Hshape Ht0 Hn0.
  assert (Hinv0 : run_inv (Nt / f + 1) (norm psi) 0 (psi, b, [])).
  { cbn [run_inv]. repeat split; try assumption; try apply Hshape.
    - intros k Hk. replace k with 0%nat by lia. rewrite Ht0. f_equal.
      simpl. ring.
    - intros k Hk. replace k with 0%nat by lia. exact Hn0. }
  destruct (outer_loop_total HN Hd _ _ (Nt / f) 0 _ Hinv0)
    as (st & E & Hinv); [lia |].
  exists st. split; [| exact Hinv].
  unfold runsplit. rewrite Hn0. cbn [bind].
  destruct (Nat.eqb_spec f 0) as [? | _]; [contradiction |].
  rewrite E. cbn [bind].
  destruct st as [[psi' b'] log']. cbn [fst snd].
  destruct Hinv as (_ & (_ & _ & _ & HNlen) & _).
  destruct (nth_error (norm_arr b') (length (norm_arr b') - 1)) eqn:En;
    [reflexivity |].
  apply nth_error_None in En. lia.
Qed.

Lemma norm_RtoC (l : list R) : norm (map RtoC l) = norm_real l.
Proof.
  unfold norm, norm_real. f_equal. rewrite map_map. f_equal.
  apply map_ext. intros p. rewrite Cabs_sq, pow2_abs. simpl. ring.
Qed.

(** The run under [__main__] does not raise, and ends in a state that
    satisfies the invariant for all [Nt/f] outer iterations. *)
Lemma main_total :
  Nx <> 0%nat -> L <> 0 -> f <> 0%nat ->
  exists st, main = Some st
             /\ run_inv (Nt / f + 1) (norm_real psi_init) (Nt / f) st.
Proof.
  intros HN HL Hf.
  assert (Hd : dx <> 0).
  { unfold dx. intros E. apply HL.
    apply Rmult_eq_reg_r with (/ INR Nx).
    - rewrite Rmult_0_l. exact E.
    - apply Rinv_neq_0_compat, not_0_INR, HN. }
  unfold main. destruct (Nat.eqb_spec Nx 0) as [? | _]; [contradiction |].
  rewrite init_total by assumption. cbn [bind].
  rewrite <- norm_RtoC.
  apply runsplit_total; try assumption.
  - now rewrite length_map, psi_init_length.
  - unfold bufs_shape. cbn [density_prob time_arr norm_arr length].
    rewrite !repeat_length. repeat split; try lia.
    constructor.
    + now rewrite length_map, psi_init_length.
    + apply Forall_forall. intros r Hr. apply repeat_spec in Hr. subst r.
      apply repeat_length.
  - cbn [time_arr]. rewrite Nat.add_1_r. reflexivity.
  - cbn [norm_arr nth_error]. now rewrite norm_RtoC.
Qed.

Lemma dx_neq_0 : Nx <> 0%nat -> L <> 0 -> dx <> 0.
Proof.
  intros HN HL E. unfold dx in E. apply HL.
  apply Rmult_eq_reg_r with (/ INR Nx).
  - rewrite Rmult_0_l. exact E.
  - apply Rinv_neq_0_compat, not_0_INR, HN.
Qed.

Lemma written_seq (a n : nat) :
  written_norm (flat_map writes_of (seq a n)) = seq (a + 1) n
  /\ written_density (flat_map writes_of (seq a n)) = seq (a + 1) n
  /\ written_time (flat_map writes_of (seq a n)) = seq (a + 1) n.
Proof.
  revert a. induction n as [| n IH]; intros a; [now repeat split |].
  destruct (IH (S a)) as (H1 & H2 & H3).
  unfold written_norm, written_density, written_time in *.
  cbn [seq flat_map writes_of app]. cbn [flat_map app].
  rewrite H1, H2, H3. replace (S a + 1)%nat with (S (a + 1)) by lia.
  now repeat split.
Qed.

(** Side conditions on the sizes of intermediate wavefunctions. *)
Ltac sizes :=
  repeat first
    [ assumption
    | apply Top_fn_length
    | apply Vop_fn_length
    | apply inner_fn_length
    | apply outer_fn_length ].

(** The un-wound sequence of one outer iteration equals the repeated Strang
    step. *)
Lemma unwound_is_strang (n : nat) (t : R) (psi : list complex) :
  Nx <> 0%nat -> dx <> 0 -> length psi = Nx ->
  strang_steps n t psi
  = Some (Top_fn (inner_fn n (Top_fn psi (- dt / 2))) (dt / 2)).
Proof.
  intros HN Hd. revert t psi. induction n as [| n IH]; intros t psi Hpsi.
  - cbn [strang_steps inner_fn]. rewrite Top_fn_compose by assumption.
    replace (- dt / 2 + dt / 2) with 0 by field.
    now rewrite Top_fn_zero.
  - cbn [strang_steps inner_fn]. unfold strang_step.
    rewrite Top_eq by assumption. cbn [bind].
    rewrite Vop_eq by sizes. cbn [bind].
    rewrite Top_eq by sizes. cbn [bind].
    rewrite IH by sizes.
    do 3 f_equal.
    rewrite (Top_fn_compose HN Hd psi) by assumption.
    replace (- dt / 2 + dt) with (dt / 2) by field.
    rewrite (Top_fn_compose HN Hd (Vop_fn _ _)) by sizes.
    replace (dt / 2 + - dt / 2) with 0 by field.
    rewrite Top_fn_zero by sizes. reflexivity.
Qed.

(* ------------------------------------------------------------------------- *)
(** ** The properties of the specification *)
(* ------------------------------------------------------------------------- *)

(** C1. Norm preservation: on a wavefunction of the grid's size, [Top]
    returns and leaves the discrete norm [sum(|psi|^2) * dx] unchanged, for
    every duration; on a grid of the wavefunction's size, [Vop] returns and
    leaves it unchanged, for every reference time and duration; and a run
    from [init] records a norm within 1e-3 of 1 in every slot of the norm
    history. *)
Theorem norm_preservation :
  (forall (psi : list complex) (tau : R),
      length psi = Nx -> Nx <> 0%nat -> dx <> 0 ->
      exists psi', Top psi tau = Some psi' /\ norm psi' = norm psi)
  /\ (forall (psi : list complex) (xs : list R) (t tau : R),
      length xs = length psi ->
      exists psi', Vop psi xs t tau = Some psi' /\ norm psi' = norm psi)
  /\ (Nx <> 0%nat -> 0 < L -> f <> 0%nat ->
      exists psi b log,
        main = Some (psi, b, log)
        /\ length (norm_arr b) = (Nt / f + 1)%nat
        /\ forall k, (k <= Nt / f)%nat ->
             exists v, nth_error (norm_arr b) k = Some v
                       /\ Rabs (v - 1) < 1e-3).
Proof.
  split; [| split].
  - intros psi tau Hlen HN Hd. exists (Top_fn psi tau). split.
    + now apply Top_eq.
    + now apply Top_fn_norm.
  - intros psi xs t tau Hlen.
    destruct (Vop psi xs t tau) as [psi' |] eqn:E.
    + exists psi'. split; [reflexivity |]. eapply Vop_norm; eassumption.
    + rewrite Vop_total in E by assumption. discriminate.
  - intros HN HL Hf.
    destruct main_total as ([[psi b] log] & E & Hinv);
      [assumption | lra | assumption |].
    exists psi, b, log. split; [exact E |].
    destruct Hinv as (_ & (_ & _ & _ & HNlen) & _ & _ & Hnrm & _).
    split; [exact HNlen |].
    intros k Hk. exists (norm_real psi_init). split; [now apply Hnrm |].
    rewrite psi_init_norm by assumption.
    replace (1 - 1) with 0 by ring. rewrite Rabs_R0. lra.
Qed.

(** C2. Strang-splitting equivalence: one outer iteration of [runsplit]
    (kinetic un-wind by [-dt/2], [f] rounds of a full kinetic and a full
    potential step, kinetic half-step) returns the wavefunction that [f]
    standard Strang steps return, for every [f]. *)
Theorem strang_equivalence (M nt : nat) (psi : list complex) (b : buffers)
    (log : list event) (t0 t : R) :
  length psi = Nx -> Nx <> 0%nat -> dx <> 0 ->
  bufs_shape M b -> (nt + 1 < M)%nat ->
  nth_error (time_arr b) nt = Some t0 ->
  exists psi' b' log',
    outer_body nt (psi, b, log) = Some (psi', b', log')
    /\ strang_steps f t psi = Some psi'.
Proof.
  intros Hpsi HN Hd Hshape Hnt Ht0.
  do 3 eexists. split.
  - apply (outer_body_total HN Hd M); eassumption.
  - now apply unwound_is_strang.
Qed.

(** C3. Potential regions (barrier height 0.25): [V] is 1e6 where
    [|x| > 0.07], 0 where [0.04 < |x| <= 0.07] and 0.25 where [|x| <= 0.04];
    both boundaries belong to the lower region; the five sample values; and
    an array input gives the scalar result at every position. *)
Theorem potential_regions :
  (forall xi t : R,
      (0.07 < Rabs xi -> V_scalar xi t 0.25 6 = 1e6)
      /\ (0.04 < Rabs xi <= 0.07 -> V_scalar xi t 0.25 6 = 0)
      /\ (Rabs xi <= 0.04 -> V_scalar xi t 0.25 6 = 0.25))
  /\ (forall t : R,
        V_scalar 0.0 t 0.25 6 = 0.25
        /\ V_scalar 0.05 t 0.25 6 = 0.0
        /\ V_scalar 0.08 t 0.25 6 = 1e6
        /\ V_scalar 0.04 t 0.25 6 = 0.25
        /\ V_scalar 0.07 t 0.25 6 = 0.0)
  /\ (forall (xs : list R) (t : R),
        V xs t 0.25 6 = map (fun xi => V_scalar xi t 0.25 6) xs).
Proof.
  assert (Hreg : forall xi t : R,
      (0.07 < Rabs xi -> V_scalar xi t 0.25 6 = 1e6)
      /\ (0.04 < Rabs xi <= 0.07 -> V_scalar xi t 0.25 6 = 0)
      /\ (Rabs xi <= 0.04 -> V_scalar xi t 0.25 6 = 0.25)).
  { intros xi t. rewrite V_scalar_region. unfold V_region.
    repeat split; intros H;
      destruct (Rlt_dec 0.07 (Rabs xi)); try lra;
      destruct (Rlt_dec 0.04 (Rabs xi)); lra. }
  split; [exact Hreg | split].
  - intros t. repeat split.
    + apply Hreg. rewrite Rabs_pos_eq; lra.
    + replace 0.0 with 0 by lra. apply Hreg. rewrite Rabs_pos_eq; lra.
    + apply Hreg. rewrite Rabs_pos_eq; lra.
    + apply Hreg. rewrite Rabs_pos_eq; lra.
    + replace 0.0 with 0 by lra. apply Hreg. rewrite Rabs_pos_eq; lra.
  - intros xs t. rewrite V_map. apply map_ext. intros xi.
    now rewrite V_scalar_region.
Qed.

(** C4. Initialisation: [init] returns the Gaussian
    [exp(-(x-0.06)^2 / (2*0.005^2))] over the grid divided by
    [sqrt(sum(|psi|^2) * dx)], whose discrete norm is 1, and buffers of
    [Nt/f + 1] slots whose slot 0 holds the initial density, the initial
    norm and time 0. *)
Theorem init_postcondition :
  Nx <> 0%nat -> 0 < L -> f <> 0%nat ->
  exists density time nrm psi,
    init = Some (density, time, nrm, psi)
    /\ psi = map (fun xi =>
                    exp (- ((xi - 0.06) ^ 2) / (2 * 0.005 ^ 2))
                    / sqrt (Rsum (map (fun xj =>
                                Rabs (exp (- ((xj - 0.06) ^ 2) / (2 * 0.005 ^ 2))) ^ 2) x)
                            * dx)) x
    /\ Rsum (map (fun p => Rabs p ^ 2) psi) * dx = 1
    /\ nth_error density 0 = Some (map (fun p => Rabs p ^ 2) psi)
    /\ nth_error nrm 0 = Some (Rsum (map (fun p => Rabs p ^ 2) psi) * dx)
    /\ nth_error time 0 = Some 0
    /\ length density = (Nt / f + 1)%nat
    /\ length time = (Nt / f + 1)%nat
    /\ length nrm = (Nt / f + 1)%nat.
Proof.
  intros HN HL Hf. do 4 eexists. split; [now apply init_total |].
  split; [unfold psi_init, norm_real; now rewrite !map_map |].
  split; [now apply psi_init_norm |].
  split; [reflexivity |].
  split; [reflexivity |].
  split; [apply nth_error_repeat; lia |].
  cbn [length]. rewrite !repeat_length. lia.
Qed.

(** C5. The spatial grid: [x] has [Nx] points, is symmetric about zero,
    strictly increasing and uniformly spaced; but its spacing is
    [L / (Nx - 1)], which is not [dx = L / Nx]. *)
Theorem grid_spacing_is_not_dx :
  (2 <= Nx)%nat -> 0 < L ->
  length x = Nx
  /\ (forall i, (i < Nx)%nat -> nth (Nx - 1 - i) x 0 = - nth i x 0)
  /\ (forall i, (S i < Nx)%nat ->
        nth (S i) x 0 - nth i x 0 = L / INR (Nx - 1)
        /\ nth i x 0 < nth (S i) x 0
        /\ nth (S i) x 0 - nth i x 0 <> dx).
Proof.
  intros HN HL. split; [apply x_length |].
  split; [intros i Hi; now apply x_symmetric |].
  intros i Hi. rewrite x_spacing by assumption.
  assert (H1 : INR (Nx - 1) = INR Nx - 1) by (rewrite minus_INR by lia; reflexivity).
  assert (H2 : 2 <= INR Nx) by (change 2 with (INR 2); apply le_INR; lia).
  assert (Hstep : 0 < L / INR (Nx - 1)).
  { apply Rdiv_lt_0_compat; [assumption | lra]. }
  split; [reflexivity |]. split.
  - pose proof (x_spacing i Hi). lra.
  - unfold dx. rewrite H1. intros E.
    assert (E' : L * INR Nx = L * (INR Nx - 1)).
    { apply (f_equal (fun v => v * (INR Nx * (INR Nx - 1)))) in E.
      field_simplify in E; lra. }
    nra.
Qed.

(** C7. Kinetic round trip: [Top] for a duration [tau] of either sign (or
    zero), then for [-tau], returns the wavefunction it started from. *)
Theorem kinetic_round_trip (psi : list complex) (tau : R) :
  length psi = Nx -> Nx <> 0%nat -> dx <> 0 ->
  exists psi', Top psi tau = Some psi' /\ Top psi' (- tau) = Some psi.
Proof.
  intros Hpsi HN Hd. exists (Top_fn psi tau). split; [now apply Top_eq |].
  rewrite Top_eq by sizes. rewrite Top_fn_compose by assumption.
  replace (tau + - tau) with 0 by ring. now rewrite Top_fn_zero.
Qed.

(** C8. Zero-duration identity: [Top] with duration 0 returns its argument,
    and so does [Vop] with duration 0, on every grid and at every time. *)
Theorem zero_duration_identity :
  (forall psi : list complex,
      length psi = Nx -> Nx <> 0%nat -> dx <> 0 -> Top psi 0 = Some psi)
  /\ (forall (psi : list complex) (xs : list R) (t : R),
        length xs = length psi -> Vop psi xs t 0 = Some psi).
Proof.
  split.
  - intros psi Hpsi HN Hd. now apply Top_zero.
  - intros psi xs t Hlen. now apply Vop_zero.
Qed.

(** C10. Kinetic additivity: [Top] for [a] and then for [b] is [Top] for
    [a + b], which multiplies every Fourier mode by the phase of argument
    [-hbar k^2 (a + b) / (2 m)]; in particular the un-wind by [-dt/2]
    followed by a full step [dt] is one half-step [dt/2]. *)
Theorem kinetic_additivity (psi : list complex) (a b : R) :
  length psi = Nx -> Nx <> 0%nat -> dx <> 0 ->
  (exists psi1 psi2,
      Top psi a = Some psi1 /\ Top psi1 b = Some psi2
      /\ Top psi (a + b) = Some psi2
      /\ fft psi2
         = Some (zipWith Cmult (dft psi)
                   (map (fun k => cis (- (hbar * k ^ 2 * (a + b)) / (2 * m)))
                        k_vec)))
  /\ (exists psi1 psi2,
        Top psi (- dt / 2) = Some psi1 /\ Top psi1 dt = Some psi2
        /\ Top psi (dt / 2) = Some psi2).
Proof.
  intros Hpsi HN Hd. split.
  - exists (Top_fn psi a), (Top_fn psi (a + b)).
    split; [now apply Top_eq |].
    split; [rewrite Top_eq by sizes; now rewrite Top_fn_compose |].
    split; [now apply Top_eq |].
    assert (Hlen : length (Top_fn psi (a + b)) = Nx) by sizes.
    destruct (Top_fn psi (a + b)) as [| z l] eqn:E;
      [simpl in Hlen; congruence |].
    cbn [fft]. rewrite <- E. unfold Top_fn. now rewrite dft_idft.
  - exists (Top_fn psi (- dt / 2)), (Top_fn psi (dt / 2)).
    split; [now apply Top_eq |].
    split; [| now apply Top_eq].
    rewrite Top_eq by sizes. rewrite Top_fn_compose by assumption.
    do 2 f_equal. field.
Qed.

(* ------------------------------------------------------------------------- *)
(** ** Further properties of the potential *)
(* ------------------------------------------------------------------------- *)

Lemma V_region_values (B xi : R) :
  V_region B xi = 1e6 \/ V_region B xi = 0 \/ V_region B xi = B.
Proof.
  unfold V_region.
  destruct (Rlt_dec 0.07 (Rabs xi)); [now left |].
  destruct (Rlt_dec 0.04 (Rabs xi)); [right; now left | right; now right].
Qed.

(** X1. The potential is even: [V(-x) = V(x)], for a scalar and elementwise
    for an array, for every barrier height. *)
Theorem V_symmetric :
  (forall (xi t B : R) (type : nat),
      V_scalar (- xi) t B type = V_scalar xi t B type)
  /\ (forall (xs : list R) (t B : R) (type : nat),
        V (map Ropp xs) t B type = V xs t B type).
Proof.
  split.
  - intros xi t B type. rewrite !V_scalar_region. unfold V_region.
    now rewrite Rabs_Ropp.
  - intros xs t B type. rewrite !V_map, map_map. apply map_ext.
    intros xi. unfold V_region. now rewrite Rabs_Ropp.
Qed.

(* ------------------------------------------------------------------------- *)
(** ** When the propagators raise *)
(* ------------------------------------------------------------------------- *)

Lemma fftfreq_None_iff (n : nat) (d : R) :
  fftfreq n d = None <-> n = 0%nat \/ d = 0.
Proof.
  unfold fftfreq. destruct (Req_dec_T (INR n * d) 0) as [E | E].
  - split; [intros _ | reflexivity].
    apply Rmult_integral in E. destruct E as [E | E]; [left | now right].
    destruct n as [| n']; [reflexivity |].
    exfalso. now apply (not_0_INR (S n')).
  - split; [discriminate |]. intros [-> | ->]; exfalso; apply E.
    + simpl. ring.
    + ring.
Qed.

Lemma fftfreq_length (n : nat) (d : R) (freq : list R) :
  fftfreq n d = Some freq -> length freq = n.
Proof.
  unfold fftfreq. destruct (Req_dec_T (INR n * d) 0); [discriminate |].
  intros H. injection H as <-. now rewrite length_map, length_seq.
Qed.

Lemma imul_None_iff (a b : list complex) :
  imul a b = None <-> length b <> length a /\ length b <> 1%nat.
Proof.
  unfold imul. destruct (Nat.eqb_spec (length b) (length a)) as [E | E].
  - split; [discriminate | intros [H _]; contradiction].
  - destruct b as [| b0 [| b1 b']]; simpl; split; try discriminate;
      try (intros [_ H]; now contradiction H);
      intros _; split; try assumption; simpl; lia.
Qed.

Lemma imul_length (a b c : list complex) :
  imul a b = Some c -> length c = length a.
Proof.
  unfold imul. destruct (Nat.eqb_spec (length b) (length a)) as [E | E].
  - intros H. injection H as <-. now apply zipWith_length.
  - destruct b as [| b0 [| b1 b']]; try discriminate.
    intros H. injection H as <-. apply length_map.
Qed.

(** X3. [Top] raises exactly when the array is empty, or [Nx] or [dx] is
    zero, or the array's size is not [Nx] while [Nx] is not 1 (one
    wavenumber broadcasts); and when it returns, the result has the size of
    its argument. *)
Theorem Top_raises_iff (psi : list complex) (tau : R) :
  (Top psi tau = None
   <-> psi = [] \/ Nx = 0%nat \/ dx = 0
       \/ (length psi <> Nx /\ Nx <> 1%nat))
  /\ (forall psi', Top psi tau = Some psi' -> length psi' = length psi).
Proof.
  clear Nt dt f V0 uninit.
  unfold Top. destruct psi as [| z psi].
  { split; [split; [now left | reflexivity] | discriminate]. }
  cbn [fft bind].
  destruct (fftfreq Nx dx) as [freq |] eqn:Ef.
  2:{ apply fftfreq_None_iff in Ef. split; [| discriminate].
      split; [intros _; right; tauto | reflexivity]. }
  pose proof (fftfreq_length _ _ _ Ef) as Hfreq.
  assert (Hnot : ~ (Nx = 0%nat \/ dx = 0)).
  { intros H. apply fftfreq_None_iff in H. congruence. }
  cbn [bind].
  set (ph := map _ (map _ freq)).
  assert (Hph : length ph = Nx) by (unfold ph; now rewrite !length_map).
  destruct (imul (dft (z :: psi)) ph) as [Y |] eqn:Ei.
  - pose proof (imul_length _ _ _ Ei) as HY. rewrite dft_length in HY.
    cbn [bind]. destruct Y as [| y Y]; [simpl in HY; lia |].
    cbn [ifft]. split.
    + split; [discriminate |].
      intros [H | [H | [H | [H1 H2]]]]; try discriminate; try tauto.
      exfalso.
      assert (Hn : imul (dft (z :: psi)) ph = None).
      { apply imul_None_iff. rewrite dft_length, Hph. split; congruence. }
      congruence.
    + intros psi' H. injection H as <-. now rewrite idft_length.
  - cbn [bind]. split; [| discriminate].
    split; [intros _ | reflexivity].
    apply imul_None_iff in Ei. rewrite dft_length, Hph in Ei.
    destruct Ei as [H1 H2]. right. right. right. split; congruence.
Qed.

(** X4. [Vop] raises exactly when the grid's size is neither the array's nor
    1 (one position broadcasts); and when it returns, the result has the
    size of its argument. *)
Theorem Vop_raises_iff (psi : list complex) (xs : list R) (t tau : R) :
  (Vop psi xs t tau = None
   <-> length xs <> length psi /\ length xs <> 1%nat)
  /\ (forall psi', Vop psi xs t tau = Some psi' -> length psi' = length psi).
Proof.
  unfold Vop. split.
  - rewrite imul_None_iff, length_map, V_length. reflexivity.
  - intros psi'. apply imul_length.
Qed.

(* ------------------------------------------------------------------------- *)
(** ** What each propagator leaves unchanged *)
(* ------------------------------------------------------------------------- *)

Lemma phase_mul_abs_sq_pointwise (g : R -> R) (a : list complex) (kv : list R) :
  length kv = length a ->
  map (fun z => Cabs z ^ 2) (zipWith Cmult a (map (fun k => cis (g k)) kv))
  = map (fun z => Cabs z ^ 2) a.
Proof.
  revert kv. induction a as [| u a IH]; intros [| v kv] H; simpl in *;
    try reflexivity; try discriminate.
  rewrite IH by lia. f_equal.
  change (Cabs (Cmult u (cis (g v))) ^ 2 = Cabs u ^ 2).
  rewrite Cabs_sq_mult, Cabs_sq_cis. ring.
Qed.

(** X5. [Vop] leaves the probability density unchanged at every grid point,
    not only its sum. *)
Theorem Vop_keeps_density (psi : list complex) (xs : list R) (t tau : R) :
  length xs = length psi ->
  exists psi',
    Vop psi xs t tau = Some psi'
    /\ map (fun z => Cabs z ^ 2) psi' = map (fun z => Cabs z ^ 2) psi.
Proof.
  intros Hlen. eexists. split; [now apply Vop_total |].
  apply phase_mul_abs_sq_pointwise. now rewrite V_length.
Qed.

Lemma dft_Top_fn (psi : list complex) (tau : R) :
  dft (Top_fn psi tau)
  = zipWith Cmult (dft psi)
      (map (fun k => cis (- (hbar * k ^ 2 * tau) / (2 * m))) k_vec).
Proof. unfold Top_fn. apply dft_idft. Qed.

Lemma fft_nonempty (a : list complex) : a <> [] -> fft a = Some (dft a).
Proof. destruct a; [congruence | reflexivity]. Qed.

Lemma length_nonempty {A : Type} (l : list A) (n : nat) :
  length l = n -> n <> 0%nat -> l <> [].
Proof. intros H Hn ->. simpl in H. congruence. Qed.

(** X6. [Top] leaves the momentum distribution unchanged: the squared
    magnitude of every Fourier coefficient is the same before and after. *)
Theorem Top_keeps_momentum_density (psi : list complex) (tau : R) :
  length psi = Nx -> Nx <> 0%nat -> dx <> 0 ->
  exists psi' A A',
    Top psi tau = Some psi' /\ fft psi = Some A /\ fft psi' = Some A'
    /\ map (fun z => Cabs z ^ 2) A' = map (fun z => Cabs z ^ 2) A.
Proof.
  intros Hlen HN Hd. exists (Top_fn psi tau), (dft psi), (dft (Top_fn psi tau)).
  split; [now apply Top_total |].
  split; [apply fft_nonempty; now apply (length_nonempty _ Nx) |].
  split.
  - apply fft_nonempty, (length_nonempty _ Nx); [| assumption].
    now apply Top_fn_length.
  - rewrite dft_Top_fn. apply phase_mul_abs_sq_pointwise.
    rewrite dft_length, k_vec_length; congruence.
Qed.

Lemma Csum_shift (n : nat) (F : nat -> complex) :
  Csum (S n) F = Cplus (F 0%nat) (Csum n (fun i => F (S i))).
Proof.
  induction n as [| n IH].
  - simpl. generalize (F 0%nat). cring.
  - change (Csum (S (S n)) F) with (Cplus (Csum (S n) F) (F (S n))).
    rewrite IH. cbn [Csum].
    generalize (Csum n (fun i => F (S i))), (F 0%nat), (F (S n)). cring.
Qed.

Lemma Csum_nth_list (a : list complex) :
  Csum (length a) (fun i => nth i a Czero) = Csum_list a.
Proof.
  induction a as [| z a IH]; [reflexivity |].
  cbn [length]. rewrite Csum_shift. cbn [nth Csum_list fold_right].
  now rewrite IH.
Qed.

(** The zero-frequency Fourier coefficient is the sum of the array. *)
Lemma dft_nth_0 (a : list complex) :
  a <> [] -> nth 0 (dft a) Czero = Csum_list a.
Proof.
  intros Ha. rewrite dft_nth by (destruct a; [congruence | simpl; lia]).
  rewrite <- Csum_nth_list. apply Csum_ext. intros i _.
  replace (- (2 * PI * INR i * INR 0 / INR (length a))) with 0
    by (simpl; unfold Rdiv; ring).
  now rewrite cis_0, Cmult_1_r.
Qed.

Lemma k_vec_nth_0 : Nx <> 0%nat -> dx <> 0 -> nth 0 k_vec 0 = 0.
Proof.
  clear Nt dt f hbar m V0 uninit.
  intros HN Hd. unfold k_vec.
  destruct (fftfreq Nx dx) as [freq |] eqn:E.
  2:{ apply fftfreq_None_iff in E. tauto. }
  unfold fftfreq in E. destruct (Req_dec_T (INR Nx * dx) 0); [discriminate |].
  injection E as <-. rewrite map_map.
  rewrite nth_map_seq by lia.
  match goal with
  | |- context [if ?c then _ else _] => destruct c eqn:Ec
  end.
  - change (INR 0) with 0. unfold Rdiv. ring.
  - apply Nat.ltb_ge in Ec. lia.
Qed.

Lemma zipWith_nth_0 (a b : list complex) :
  a <> [] -> b <> [] ->
  nth 0 (zipWith Cmult a b) Czero = Cmult (nth 0 a Czero) (nth 0 b Czero).
Proof. destruct a, b; congruence || reflexivity. Qed.

(** X7. [Top] keeps the sum of the wavefunction's entries: the
    zero-wavenumber mode gets the phase 1. *)
Theorem Top_keeps_sum (psi : list complex) (tau : R) :
  length psi = Nx -> Nx <> 0%nat -> dx <> 0 ->
  exists psi', Top psi tau = Some psi' /\ Csum_list psi' = Csum_list psi.
Proof.
  intros Hlen HN Hd. exists (Top_fn psi tau).
  split; [now apply Top_total |].
  assert (Hne : psi <> []) by now apply (length_nonempty _ Nx).
  assert (Hne' : Top_fn psi tau <> []).
  { apply (length_nonempty _ Nx); [| assumption]. now apply Top_fn_length. }
  rewrite <- (dft_nth_0 _ Hne'), <- (dft_nth_0 _ Hne), dft_Top_fn.
  rewrite zipWith_nth_0.
  - f_equal. rewrite <- (Cmult_1_r (nth 0 (dft psi) Czero)) at 2. f_equal.
    rewrite nth_indep with (d' := cis (- (hbar * 0 ^ 2 * tau) / (2 * m)))
      by (rewrite length_map, k_vec_length by assumption; lia).
    rewrite (map_nth (fun k => cis (- (hbar * k ^ 2 * tau) / (2 * m)))).
    rewrite k_vec_nth_0 by assumption. rewrite <- cis_0. f_equal.
    unfold Rdiv. ring.
  - apply (length_nonempty _ Nx); [now rewrite dft_length | assumption].
  - apply (length_nonempty _ Nx); [| assumption].
    rewrite length_map. now apply k_vec_length.
Qed.

(* ------------------------------------------------------------------------- *)
(** ** Further properties of the initial state *)
(* ------------------------------------------------------------------------- *)

(** X8. [init] raises exactly when [f] is 0 (also on an empty grid it
    returns); the wavefunction and every density row have the grid's size,
    and every slot after the first is zero in the three buffers. *)
Theorem init_raises_iff :
  (init = None <-> f = 0%nat)
  /\ (f <> 0%nat ->
      exists density time nrm psi,
        init = Some (density, time, nrm, psi)
        /\ length psi = Nx
        /\ Forall (fun row => length row = Nx) density
        /\ forall k, (1 <= k <= Nt / f)%nat ->
             nth_error density k = Some (repeat 0 Nx)
             /\ nth_error time k = Some 0
             /\ nth_error nrm k = Some 0).
Proof.
  split.
  - split.
    + intros H. destruct (Nat.eq_dec f 0) as [E | E]; [exact E |].
      rewrite init_total in H by assumption. discriminate.
    + intros H. unfold init.
      destruct (Nat.eqb_spec f 0); [reflexivity | contradiction].
  - intros Hf. do 4 eexists. split; [now apply init_total |].
    split; [apply psi_init_length |]. split.
    + constructor; [now rewrite length_map, psi_init_length |].
      apply Forall_forall. intros r Hr. apply repeat_spec in Hr. subst r.
      apply repeat_length.
    + intros k Hk. split; [| split].
      * destruct k as [| k]; [lia |]. cbn [nth_error].
        apply nth_error_repeat. lia.
      * apply nth_error_repeat. lia.
      * destruct k as [| k]; [lia |]. cbn [nth_error].
        apply nth_error_repeat. lia.
Qed.

(* ------------------------------------------------------------------------- *)
(** ** When the integrator raises *)
(* ------------------------------------------------------------------------- *)

Lemma set_at_past_end {A : Type} (i : nat) (v : A) (l : list A) :
  (length l <= i)%nat -> set_at i v l = None.
Proof.
  revert i. induction l as [| u l IH]; intros i Hi; [now destruct i |].
  destruct i as [| i]; [simpl in Hi; lia |].
  cbn [set_at]. rewrite IH by (simpl in Hi; lia). reflexivity.
Qed.

Lemma set_at_Some_inv {A : Type} (i : nat) (v : A) (l l' : list A) :
  set_at i v l = Some l' -> (i < length l)%nat /\ length l' = length l.
Proof.
  intros H. destruct (Nat.lt_ge_cases i (length l)) as [Hlt | Hge].
  - rewrite set_at_in_range in H by assumption. injection H as <-.
    split; [assumption | now apply upd_length].
  - rewrite set_at_past_end in H by assumption. discriminate.
Qed.

Lemma set_row_Some_inv (i : nat) (v : list R) (rows rows' : list (list R)) :
  set_row i v rows = Some rows' ->
  (i < length rows)%nat /\ length rows' = length rows.
Proof.
  unfold set_row. destruct (nth_error rows i); [| discriminate].
  cbn [bind].
  destruct (if (length v =? length l)%nat then Some v
            else match v with
                 | [] => None
                 | [v0] => Some (repeat v0 (length l))
                 | v0 :: _ :: _ => None
                 end); [| discriminate].
  cbn [bind]. apply set_at_Some_inv.
Qed.

(** An outer iteration that returns has found slot [nt + 1] in the three
    buffers, and leaves their sizes unchanged. *)
Lemma outer_body_Some_inv (nt : nat) (psi psi' : list complex)
    (b b' : buffers) (log log' : list event) :
  outer_body nt (psi, b, log) = Some (psi', b', log') ->
  (nt + 1 < length (norm_arr b))%nat
  /\ (nt + 1 < length (density_prob b))%nat
  /\ (nt + 1 < length (time_arr b))%nat
  /\ length (norm_arr b') = length (norm_arr b)
  /\ length (density_prob b') = length (density_prob b)
  /\ length (time_arr b') = length (time_arr b).
Proof.
  unfold outer_body.
  destruct (Top psi (- dt / 2)); [| discriminate]. cbn [bind].
  destruct (nth_error (time_arr b) nt); [| discriminate]. cbn [bind].
  destruct (inner_loop f r l) as [[t1 p1] |]; [| discriminate]. cbn [bind].
  destruct (Top p1 (dt / 2)); [| discriminate]. cbn [bind].
  destruct (set_at (nt + 1) (norm l0) (norm_arr b)) eqn:E1; [| discriminate].
  cbn [bind].
  destruct (set_row (nt + 1) _ (density_prob b)) eqn:E2; [| discriminate].
  cbn [bind].
  destruct (set_at (nt + 1) t1 (time_arr b)) eqn:E3; [| discriminate].
  cbn [bind]. intros H. injection H as <- <- <-.
  apply set_at_Some_inv in E1, E3. apply set_row_Some_inv in E2.
  cbn [norm_arr density_prob time_arr]. tauto.
Qed.

Lemma outer_loop_raises (nts : list nat) (nt : nat) (st : run_state) :
  In nt nts -> lacks_slot nt (snd (fst st)) -> outer_loop nts st = None.
Proof.
  revert st. induction nts as [| nt0 nts IH]; intros st Hin Hlack;
    [contradiction |].
  cbn [outer_loop]. destruct (outer_body nt0 st) as [st' |] eqn:E;
    [| reflexivity].
  cbn [bind]. destruct st as [[psi b] log], st' as [[psi' b'] log'].
  apply outer_body_Some_inv in E.
  destruct E as (H1 & H2 & H3 & H4 & H5 & H6).
  cbn [fst snd] in *. unfold lacks_slot in Hlack.
  destruct Hin as [-> | Hin]; [lia |].
  apply IH; [assumption |]. unfold lacks_slot. cbn [fst snd]. lia.
Qed.

(** X10. [runsplit] raises when [f] is 0, when the norm buffer is empty, and
    when at least one outer iteration is due and one of the three buffers has
    fewer than [Nt/f + 1] slots, whatever the wavefunction. *)
Theorem runsplit_raises (b : buffers) (psi : list complex) :
  f = 0%nat
  \/ norm_arr b = []
  \/ ((1 <= Nt / f)%nat
      /\ ((length (norm_arr b) <= Nt / f)%nat
          \/ (length (density_prob b) <= Nt / f)%nat
          \/ (length (time_arr b) <= Nt / f)%nat)) ->
  runsplit b psi = None.
Proof.
  intros H. unfold runsplit.
  destruct (nth_error (norm_arr b) 0) eqn:E0; [| reflexivity].
  cbn [bind]. destruct (Nat.eqb_spec f 0) as [Hf | Hf]; [reflexivity |].
  destruct H as [H | [H | [Hn H]]]; [contradiction | |].
  - rewrite H in E0. discriminate.
  - rewrite (outer_loop_raises _ (Nt / f - 1)); [reflexivity | |].
    + apply in_seq. lia.
    + unfold lacks_slot. cbn [fst snd]. lia.
Qed.

(* ------------------------------------------------------------------------- *)
(** ** The whole run *)
(* ------------------------------------------------------------------------- *)

Lemma iter_outer_fn_length (a : nat) (psi : list complex) :
  Nx <> 0%nat -> dx <> 0 -> length psi = Nx ->
  length (Nat.iter a outer_fn psi) = Nx.
Proof.
  intros HN Hd Hpsi. induction a as [| a IH]; [assumption |].
  cbn [Nat.iter nat_rect]. now apply outer_fn_length.
Qed.

Lemma iter_outer_fn_norm (a : nat) (psi : list complex) :
  Nx <> 0%nat -> dx <> 0 -> length psi = Nx ->
  norm (Nat.iter a outer_fn psi) = norm psi.
Proof.
  intros HN Hd Hpsi. induction a as [| a IH]; [reflexivity |].
  cbn [Nat.iter nat_rect]. rewrite outer_fn_norm; try assumption.
  now apply iter_outer_fn_length.
Qed.

Lemma run_step (M : nat) (t00 : R) (psi0 : list complex) (b0 : buffers)
    (a : nat) (st : run_state) :
  Nx <> 0%nat -> dx <> 0 ->
  run_shape M t00 a st -> run_trace psi0 b0 a st -> (a + 1 < M)%nat ->
  exists st', outer_body a st = Some st'
              /\ run_shape M t00 (S a) st' /\ run_trace psi0 b0 (S a) st'.
Proof.
  intros HN Hd. destruct st as [[psi b] log].
  intros (Hpsi & Hshape & Htime) (Hiter & Hslots & Hframe) Ha.
  pose proof Hshape as (HD & Hrows & HT & HNl).
  eexists. split; [| split].
  - apply (outer_body_total HN Hd M); try eassumption. apply Htime. lia.
  - cbn [run_shape]. split; [now apply outer_fn_length |]. split.
    + unfold bufs_shape. cbn [density_prob time_arr norm_arr].
      rewrite !upd_length by lia. repeat split; try assumption.
      apply upd_Forall; [| assumption].
      rewrite length_map. now apply outer_fn_length.
    + cbn [time_arr]. intros k Hk.
      destruct (Nat.eq_dec k (a + 1)) as [-> | Hne].
      * rewrite upd_nth_error_same by lia. f_equal.
        rewrite plus_INR. simpl. ring.
      * rewrite upd_nth_error_other by lia. apply Htime. lia.
  - cbn [run_trace density_prob time_arr norm_arr].
    assert (Hnext : outer_fn psi = Nat.iter (a + 1) outer_fn psi0).
    { rewrite Nat.add_1_r. cbn [Nat.iter nat_rect]. now rewrite Hiter. }
    split; [now rewrite Hnext, Nat.add_1_r |]. split.
    + intros k Hk. destruct (Nat.eq_dec k (a + 1)) as [-> | Hne].
      * rewrite !upd_nth_error_same by lia. now rewrite Hnext.
      * rewrite !upd_nth_error_other by lia. apply Hslots. lia.
    + intros k Hk. rewrite !upd_nth_error_other by lia. apply Hframe. lia.
Qed.

Lemma run_loop (M : nat) (t00 : R) (psi0 : list complex) (b0 : buffers)
    (n a : nat) (st : run_state) :
  Nx <> 0%nat -> dx <> 0 ->
  run_shape M t00 a st -> run_trace psi0 b0 a st -> (a + n < M)%nat ->
  exists st', outer_loop (seq a n) st = Some st'
              /\ run_shape M t00 (a + n) st'
              /\ run_trace psi0 b0 (a + n) st'.
Proof.
  intros HN Hd. revert a st.
  induction n as [| n IH]; intros a st Hs Ht Hn.
  - exists st. rewrite Nat.add_0_r. now repeat split.
  - destruct (run_step M t00 psi0 b0 a st HN Hd Hs Ht) as (st1 & E1 & Hs1 & Ht1);
      [lia |].
    destruct (IH (S a) st1 Hs1 Ht1) as (st2 & E2 & Hs2 & Ht2); [lia |].
    exists st2. rewrite Nat.add_succ_r. split; [| now split].
    cbn [seq outer_loop]. rewrite E1. exact E2.
Qed.

(** [runsplit] on buffers of at least [Nt/f + 1] slots: it returns, and the
    final state is [Nt/f] outer steps from the start. *)
Lemma runsplit_trace (M : nat) (t00 : R) (b : buffers) (psi : list complex) :
  Nx <> 0%nat -> dx <> 0 -> f <> 0%nat ->
  length psi = Nx -> bufs_shape M b -> (Nt / f + 1 <= M)%nat ->
  nth_error (time_arr b) 0 = Some t00 ->
  exists st, runsplit b psi = Some st
             /\ run_shape M t00 (Nt / f) st
             /\ run_trace psi b (Nt / f) st.
Proof.
  intros HN Hd Hf Hpsi Hshape HM Ht0.
  pose proof Hshape as (HD & Hrows & HT & HNl).
  assert (Hs0 : run_shape M t00 0 (psi, b, [])).
  { cbn [run_shape]. repeat split; try assumption.
    intros k Hk. replace k with 0%nat by lia. rewrite Ht0. f_equal.
    simpl. ring. }
  assert (Htr0 : run_trace psi b 0 (psi, b, [])).
  { cbn [run_trace]. split; [reflexivity |]. split; [intros; lia |].
    intros; now repeat split. }
  destruct (run_loop M t00 psi b (Nt / f) 0 _ HN Hd Hs0 Htr0)
    as (st & E & Hs & Htr); [lia |].
  exists st. split; [| now split].
  unfold runsplit.
  destruct (nth_error (norm_arr b) 0) eqn:E0.
  2:{ apply nth_error_None in E0. lia. }
  cbn [bind]. destruct (Nat.eqb_spec f 0) as [? | _]; [contradiction |].
  rewrite E. cbn [bind].
  destruct st as [[psi' b'] log']. cbn [fst snd].
  destruct Hs as (_ & (_ & _ & _ & HNl') & _).
  destruct (nth_error (norm_arr b') (length (norm_arr b') - 1)) eqn:En;
    [reflexivity |].
  apply nth_error_None in En. lia.
Qed.

(** X11. [runsplit] on buffers of at least [Nt/f + 1] slots returns, and
    leaves slot 0 and every slot after [Nt/f] of the three buffers as it
    found them. *)
Theorem runsplit_frame (M : nat) (t00 : R) (b : buffers) (psi : list complex) :
  Nx <> 0%nat -> dx <> 0 -> f <> 0%nat ->
  length psi = Nx -> bufs_shape M b -> (Nt / f + 1 <= M)%nat ->
  nth_error (time_arr b) 0 = Some t00 ->
  exists psi' b' log,
    runsplit b psi = Some (psi', b', log)
    /\ forall k, (k = 0 \/ Nt / f < k)%nat ->
         nth_error (density_prob b') k = nth_error (density_prob b) k
         /\ nth_error (time_arr b') k = nth_error (time_arr b) k
         /\ nth_error (norm_arr b') k = nth_error (norm_arr b) k.
Proof.
  intros HN Hd Hf Hpsi Hshape HM Ht0.
  destruct (runsplit_trace M t00 b psi HN Hd Hf Hpsi Hshape HM Ht0)
    as ([[psi' b'] log] & E & _ & Htr).
  exists psi', b', log. split; [exact E |]. apply Htr.
Qed.

Lemma strang_fn_length (n : nat) (psi : list complex) :
  Nx <> 0%nat -> dx <> 0 -> length psi = Nx -> length (strang_fn n psi) = Nx.
Proof.
  intros HN Hd. revert psi. induction n as [| n IH]; intros psi H;
    [assumption |].
  cbn [strang_fn]. apply IH. sizes.
Qed.

Lemma strang_steps_total (n : nat) (t : R) (psi : list complex) :
  Nx <> 0%nat -> dx <> 0 -> length psi = Nx ->
  strang_steps n t psi = Some (strang_fn n psi).
Proof.
  intros HN Hd. revert t psi. induction n as [| n IH]; intros t psi H;
    [reflexivity |].
  cbn [strang_steps strang_fn]. unfold strang_step.
  rewrite Top_eq by assumption. cbn [bind].
  rewrite Vop_eq by sizes. cbn [bind].
  rewrite Top_eq by sizes. cbn [bind].
  apply IH. sizes.
Qed.

Lemma strang_fn_add (a b : nat) (psi : list complex) :
  strang_fn (a + b) psi = strang_fn b (strang_fn a psi).
Proof.
  revert psi. induction a as [| a IH]; intros psi; [reflexivity |].
  cbn [Nat.add strang_fn]. apply IH.
Qed.

Lemma outer_fn_strang_fn (psi : list complex) :
  Nx <> 0%nat -> dx <> 0 -> length psi = Nx ->
  outer_fn psi = strang_fn f psi.
Proof.
  intros HN Hd H.
  pose proof (unwound_is_strang f 0 psi HN Hd H) as E.
  rewrite strang_steps_total in E by assumption.
  injection E as E. now rewrite E.
Qed.

Lemma iter_outer_fn_strang (a : nat) (psi : list complex) :
  Nx <> 0%nat -> dx <> 0 -> length psi = Nx ->
  Nat.iter a outer_fn psi = strang_fn (a * f) psi.
Proof.
  intros HN Hd H. induction a as [| a IH]; [reflexivity |].
  change (Nat.iter (S a) outer_fn psi) with (outer_fn (Nat.iter a outer_fn psi)).
  rewrite IH.
  rewrite outer_fn_strang_fn by (try assumption; now apply strang_fn_length).
  rewrite <- strang_fn_add. f_equal. simpl. lia.
Qed.

(** X13. The whole run is [(Nt/f) * f] Strang steps: [runsplit] returns the
    wavefunction these steps return, and the last recorded time is the first
    time plus [(Nt/f) * f * dt]; the [Nt mod f] steps that remain of [Nt]
    are not made. *)
Theorem runsplit_is_strang_run (M : nat) (t00 t : R) (b : buffers)
    (psi : list complex) :
  Nx <> 0%nat -> dx <> 0 -> f <> 0%nat ->
  length psi = Nx -> bufs_shape M b -> (Nt / f + 1 <= M)%nat ->
  nth_error (time_arr b) 0 = Some t00 ->
  exists psi' b' log,
    runsplit b psi = Some (psi', b', log)
    /\ strang_steps (Nt / f * f) t psi = Some psi'
    /\ nth_error (time_arr b') (Nt / f) = Some (t00 + INR (Nt / f * f) * dt)
    /\ (Nt / f * f = Nt - Nt mod f)%nat.
Proof.
  intros HN Hd Hf Hpsi Hshape HM Ht0.
  destruct (runsplit_trace M t00 b psi HN Hd Hf Hpsi Hshape HM Ht0)
    as ([[psi' b'] log] & E & (_ & _ & Htime) & (Hiter & _)).
  exists psi', b', log. split; [exact E |]. split; [| split].
  - rewrite strang_steps_total by assumption. f_equal.
    rewrite Hiter. symmetry. now apply iter_outer_fn_strang.
  - rewrite Htime by lia. f_equal. rewrite mult_INR. ring.
  - pose proof (Nat.div_mod_eq Nt f). lia.
Qed.

(** The run under [__main__] returns; its final state is [Nt/f] outer steps
    from the state [init] returns. *)
Lemma main_trace :
  Nx <> 0%nat -> L <> 0 -> f <> 0%nat ->
  exists st,
    main = Some st
    /\ run_shape (Nt / f + 1) 0 (Nt / f) st
    /\ run_trace (map RtoC psi_init)
         (mkBuffers
            (map (fun p => Rabs p ^ 2) psi_init :: repeat (repeat 0 Nx) (Nt / f))
            (repeat 0 (Nt / f + 1))
            (norm_real psi_init :: repeat 0 (Nt / f)))
         (Nt / f) st.
Proof.
  intros HN HL Hf. pose proof (dx_neq_0 HN HL) as Hd.
  unfold main. destruct (Nat.eqb_spec Nx 0) as [? | _]; [contradiction |].
  rewrite init_total by assumption. cbn [bind].
  apply runsplit_trace; try assumption; try lia.
  - now rewrite length_map, psi_init_length.
  - unfold bufs_shape. cbn [density_prob time_arr norm_arr length].
    rewrite !repeat_length. repeat split; try lia.
    constructor.
    + now rewrite length_map, psi_init_length.
    + apply Forall_forall. intros r Hr. apply repeat_spec in Hr. subst r.
      apply repeat_length.
  - cbn [time_arr]. rewrite Nat.add_1_r. reflexivity.
Qed.

Lemma Cabs_sq_nonneg (z : complex) : 0 <= Cabs z ^ 2.
Proof. rewrite Cabs_sq. nra. Qed.

(** After the run: the sizes of the buffers, and for every sample
    [k <= Nt/f] the density row, the norm and the time of its slot. *)
Lemma main_slots :
  Nx <> 0%nat -> 0 < L -> f <> 0%nat ->
  exists psi b log,
    main = Some (psi, b, log)
    /\ length (density_prob b) = (Nt / f + 1)%nat
    /\ length (time_arr b) = (Nt / f + 1)%nat
    /\ length (norm_arr b) = (Nt / f + 1)%nat
    /\ (forall k, (k <= Nt / f)%nat ->
          exists row,
            nth_error (density_prob b) k = Some row
            /\ length row = Nx
            /\ Forall (fun d => 0 <= d) row
            /\ nth_error (norm_arr b) k = Some (Rsum row * dx)
            /\ Rsum row * dx = 1
            /\ nth_error (time_arr b) k = Some (INR k * INR f * dt))
    /\ ((Nt / f)%nat <> 0%nat ->
        nth_error (density_prob b) (Nt / f)
        = Some (map (fun z => Cabs z ^ 2) psi)).
Proof.
  intros HN HL Hf.
  assert (HL' : L <> 0) by lra.
  pose proof (dx_neq_0 HN HL') as Hd.
  destruct (main_trace HN HL' Hf)
    as ([[psi b] log] & E & (_ & (HDl & _ & HTl & HNl) & Htime)
        & (Hiter & Hslots & Hframe)).
  exists psi, b, log. split; [exact E |].
  repeat (split; [assumption |]). split.
  - intros k Hk.
    assert (Htk : nth_error (time_arr b) k = Some (INR k * INR f * dt)).
    { rewrite Htime by assumption. f_equal. ring. }
    destruct (Nat.eq_dec k 0) as [-> | Hk0].
    + destruct (Hframe 0%nat (or_introl eq_refl)) as (HD0 & _ & HN0).
      exists (map (fun p => Rabs p ^ 2) psi_init).
      split; [rewrite HD0; reflexivity |].
      split; [now rewrite length_map, psi_init_length |].
      split.
      * apply Forall_forall. intros d Hin. apply in_map_iff in Hin.
        destruct Hin as (p & <- & _). rewrite pow2_abs. nra.
      * split; [rewrite HN0; reflexivity |].
        split; [now apply psi_init_norm | exact Htk].
    + destruct (Hslots k) as (HDk & HNk); [lia |].
      assert (Hlen0 : length (map RtoC psi_init) = Nx)
        by now rewrite length_map, psi_init_length.
      exists (map (fun z => Cabs z ^ 2) (Nat.iter k outer_fn (map RtoC psi_init))).
      split; [exact HDk |].
      split; [rewrite length_map; now apply iter_outer_fn_length |].
      split.
      * apply Forall_forall. intros d Hin. apply in_map_iff in Hin.
        destruct Hin as (z & <- & _). apply Cabs_sq_nonneg.
      * fold (norm (Nat.iter k outer_fn (map RtoC psi_init))).
        split; [exact HNk |]. split; [| exact Htk].
        rewrite iter_outer_fn_norm by assumption.
        rewrite norm_RtoC. now apply psi_init_norm.
  - intros Hnz. destruct (Hslots (Nt / f)%nat) as (HDk & _); [lia |].
    now rewrite Hiter.
Qed.

(** X12. After the run, every recorded density row [k <= Nt/f] has the
    grid's size, no negative entry, and sums (times [dx]) to the norm
    recorded in the same slot, which is 1; and the last row is the density of
    the wavefunction [runsplit] returns. *)
Theorem density_matches_norm :
  Nx <> 0%nat -> 0 < L -> f <> 0%nat ->
  exists psi b log,
    main = Some (psi, b, log)
    /\ (forall k, (k <= Nt / f)%nat ->
          exists row,
            nth_error (density_prob b) k = Some row
            /\ length row = Nx
            /\ Forall (fun d => 0 <= d) row
            /\ nth_error (norm_arr b) k = Some (Rsum row * dx)
            /\ Rsum row * dx = 1)
    /\ ((Nt / f)%nat <> 0%nat ->
        nth_error (density_prob b) (Nt / f)
        = Some (map (fun z => Cabs z ^ 2) psi)).
Proof.
  intros HN HL Hf.
  destruct (main_slots HN HL Hf)
    as (psi & b & log & E & _ & _ & _ & Hslots & Hlast).
  exists psi, b, log. split; [exact E |]. split; [| exact Hlast].
  intros k Hk. destruct (Hslots k Hk) as (row & H1 & H2 & H3 & H4 & H5 & _).
  exists row. now repeat split.
Qed.

(* ------------------------------------------------------------------------- *)
(** ** The grids in position and in wavenumber *)
(* ------------------------------------------------------------------------- *)

Lemma nth_error_of_nth {A : Type} (l : list A) (i : nat) (d : A) :
  (i < length l)%nat -> nth_error l i = Some (nth i l d).
Proof. intros H. now apply nth_error_nth'. Qed.

(** X14. The grid's end points are exactly [-L/2] and [L/2] when it has at
    least two points; a grid of one point is [-L/2] alone, and a grid of no
    point is empty. *)
Theorem grid_endpoints :
  ((2 <= Nx)%nat ->
   nth_error x 0 = Some (- L / 2) /\ nth_error x (Nx - 1) = Some (L / 2))
  /\ (Nx = 1%nat -> x = [- L / 2])
  /\ (Nx = 0%nat -> x = []).
Proof.
  split; [| split].
  - intros HN.
    assert (Hd : INR (Nx - 1) <> 0) by (apply not_0_INR; lia).
    rewrite !(nth_error_of_nth x _ 0) by (rewrite x_length; lia).
    unfold x. rewrite !linspace_nth by lia. split; f_equal.
    + change (INR 0) with 0. ring.
    + field. exact Hd.
  - intros H. unfold x, linspace. rewrite H. cbn [Nat.sub Nat.ltb Nat.leb seq map].
    f_equal. change (INR 0) with 0. ring.
  - intros H. unfold x, linspace. rewrite H. reflexivity.
Qed.

Lemma half_split (n : nat) : n <> 0%nat -> ((n - 1) / 2 + 1 + n / 2 = n)%nat.
Proof.
  intros Hn.
  pose proof (Nat.div_mod_eq n 2) as H1.
  pose proof (Nat.div_mod_eq (n - 1) 2) as H2.
  pose proof (Nat.mod_upper_bound n 2) as H3.
  pose proof (Nat.mod_upper_bound (n - 1) 2) as H4.
  lia.
Qed.

Lemma fftfreq_nth (n : nat) (d : R) (freq : list R) (i : nat) :
  fftfreq n d = Some freq -> (i < n)%nat ->
  nth i freq 0
  = (if (i <? (n - 1) / 2 + 1)%nat then INR i else INR i - INR n)
    * (1 / (INR n * d)).
Proof.
  unfold fftfreq. destruct (Req_dec_T (INR n * d) 0); [discriminate |].
  intros H Hi.
  assert (E : freq = map (fun i =>
                (if (i <? (n - 1) / 2 + 1)%nat then INR i
                 else - INR (n / 2) + INR (i - ((n - 1) / 2 + 1)))
                * (1 / (INR n * d))) (seq 0 n)) by congruence.
  rewrite E, nth_map_seq by assumption.
  destruct (Nat.ltb_spec i ((n - 1) / 2 + 1)) as [Hlt | Hge]; [reflexivity |].
  f_equal. rewrite minus_INR by assumption.
  assert (Hn : n <> 0%nat) by lia.
  rewrite <- (half_split n Hn) at 3. rewrite !plus_INR. ring.
Qed.

(** X17. The wavenumbers of [Top] are the integer multiples [2 pi j / L],
    [j = 0, 1, ..., (Nx-1)/2] followed by [j = -(Nx/2), ..., -1]. *)
Theorem k_vec_values (i : nat) :
  Nx <> 0%nat -> L <> 0 -> (i < Nx)%nat ->
  length k_vec = Nx
  /\ nth i k_vec 0
     = (if (i <? (Nx - 1) / 2 + 1)%nat then INR i else INR i - INR Nx)
       * (2 * PI / L).
Proof.
  intros HN HL Hi. pose proof (dx_neq_0 HN HL) as Hd.
  split; [now apply k_vec_length |].
  unfold k_vec. destruct (fftfreq_Some HN Hd) as (freq & E & Hlen).
  rewrite E.
  rewrite nth_indep with (d' := 0 * 2 * PI) by (rewrite length_map; lia).
  rewrite (map_nth (fun v => v * 2 * PI)).
  rewrite (fftfreq_nth Nx dx freq i E Hi).
  unfold dx. field. split; [assumption | now apply not_0_INR].
Qed.

(* ------------------------------------------------------------------------- *)
(** ** The frames handed to the animation *)
(* ------------------------------------------------------------------------- *)

Lemma fold_left_Rmax_spec (l : list R) (u : R) :
  (fold_left Rmax l u = u \/ In (fold_left Rmax l u) l)
  /\ u <= fold_left Rmax l u
  /\ Forall (fun v => v <= fold_left Rmax l u) l.
Proof.
  revert u. induction l as [| w l IH]; intros u; cbn [fold_left].
  - repeat split; [now left | lra | constructor].
  - destruct (IH (Rmax u w)) as (Hin & Hle & Hall).
    pose proof (Rmax_l u w). pose proof (Rmax_r u w).
    split; [| split].
    + destruct Hin as [E | Hin]; [| right; now right].
      rewrite E. unfold Rmax. destruct (Rle_dec u w); [right | left]; auto.
      now left.
    + lra.
    + constructor; [lra | assumption].
Qed.

(** [np.max] returns an element that bounds every element. *)
Lemma np_max_spec (l : list R) (mx : R) :
  np_max l = Some mx -> In mx l /\ Forall (fun v => v <= mx) l.
Proof.
  destruct l as [| u l]; [discriminate |]. cbn [np_max].
  intros H. injection H as <-.
  destruct (fold_left_Rmax_spec l u) as (Hin & Hle & Hall).
  split.
  - destruct Hin as [E | Hin]; [rewrite E; now left | now right].
  - constructor; assumption.
Qed.

Lemma np_max_nonempty (l : list R) : l <> [] -> exists mx, np_max l = Some mx.
Proof. destruct l; [congruence | eexists; reflexivity]. Qed.

Lemma Rltb_true_iff (u v : R) : Rltb u v = true <-> u < v.
Proof.
  unfold Rltb. destruct (Rlt_dec u v); split; auto; discriminate.
Qed.

Lemma scale_of_total (maxv : R) (V_plot : list R) :
  exists sf, scale_of maxv V_plot = Some sf.
Proof.
  unfold scale_of. destruct (existsb _ V_plot) eqn:E; [| now eexists].
  apply existsb_exists in E. destruct E as (v & Hin & Hv).
  destruct (np_max_nonempty (filter (fun v => Rltb v 1e5) V_plot)) as (mx & ->).
  - intros Hnil. assert (Hf : In v (filter (fun v => Rltb v 1e5) V_plot))
      by (apply filter_In; now split).
    rewrite Hnil in Hf. contradiction.
  - now eexists.
Qed.

(** [update] returns whenever the frame's slot exists in the three buffers,
    its density row has the grid's size and the grid is not empty. *)
Lemma update_total (b : buffers) (frame : nat) (maxv : R)
    (y : list R) (tf nf : R) :
  Nx <> 0%nat ->
  nth_error (density_prob b) frame = Some y -> length y = Nx ->
  nth_error (time_arr b) frame = Some tf ->
  nth_error (norm_arr b) frame = Some nf ->
  exists sf,
    scale_of maxv (V x tf V0 6) = Some sf
    /\ update b frame maxv
       = Some (mkFramePlot tf nf (nth 0 x 0, nth (Nx - 1) x 0) (0, maxv) y
                 (map (fun v => v * sf) (V x tf V0 6))).
Proof.
  intros HN Hy Hlen Ht Hn.
  destruct (scale_of_total maxv (V x tf V0 6)) as (sf & Hsf).
  exists sf. split; [exact Hsf |].
  unfold update. rewrite Hy, Ht, Hn. cbn [bind].
  rewrite !(nth_error_of_nth x _ 0) by (rewrite x_length; lia).
  cbn [bind]. rewrite Hlen, x_length, Nat.eqb_refl. cbn [negb].
  fold (scale_of maxv (V x tf V0 6)). rewrite Hsf. reflexivity.
Qed.

(** X15. After the run, [update] returns for every frame [0 .. Nt/f] (the
    frames the animation asks for): the title shows the time
    [frame * f * dt] and the norm 1, the curve is the density row of that
    sample, the axis limits are the grid's end points and [0, maxv]; for
    every later frame it raises. *)
Theorem update_frames (maxv : R) :
  (2 <= Nx)%nat -> 0 < L -> f <> 0%nat ->
  exists psi b log,
    main = Some (psi, b, log)
    /\ (forall frame, (frame <= Nt / f)%nat ->
          exists p,
            update b frame maxv = Some p
            /\ title_t p = INR frame * INR f * dt
            /\ title_norm p = 1
            /\ nth_error (density_prob b) frame = Some (curve_density p)
            /\ xlim p = (- L / 2, L / 2)
            /\ ylim p = (0, maxv)
            /\ length (curve_potential p) = Nx)
    /\ (forall frame, (Nt / f < frame)%nat -> update b frame maxv = None).
Proof.
  intros HN HL Hf.
  assert (HN' : Nx <> 0%nat) by lia.
  destruct (main_slots HN' HL Hf)
    as (psi & b & log & E & HDl & HTl & HNl & Hslots & _).
  exists psi, b, log. split; [exact E |]. split.
  - intros frame Hfr.
    destruct (Hslots frame Hfr) as (row & H1 & H2 & _ & H4 & H5 & H6).
    rewrite H5 in H4.
    destruct (update_total b frame maxv row _ _ HN' H1 H2 H6 H4)
      as (sf & _ & Hu).
    eexists. split; [exact Hu |].
    cbn [title_t title_norm curve_density xlim ylim curve_potential].
    repeat split; try assumption.
    + assert (Hd : INR (Nx - 1) <> 0) by (apply not_0_INR; lia).
      unfold x. rewrite !linspace_nth by lia. f_equal.
      * change (INR 0) with 0. ring.
      * field. exact Hd.
    + now rewrite length_map, V_length, x_length.
  - intros frame Hfr. unfold update.
    destruct (nth_error (density_prob b) frame) eqn:En; [| reflexivity].
    assert (nth_error (density_prob b) frame <> None) by congruence.
    apply nth_error_Some in H. lia.
Qed.

(** X16. When the barrier height is positive and below 1e5 and some grid
    point lies on the barrier, [update] draws the barrier at height [maxv],
    the wells at 0 and the wall at [1e6 * maxv / V0]; when every grid point
    lies in the wall, it draws the potential unscaled. *)
Theorem update_potential_scaling (b : buffers) (frame : nat) (maxv : R)
    (y : list R) (tf nf : R) :
  Nx <> 0%nat ->
  nth_error (density_prob b) frame = Some y -> length y = Nx ->
  nth_error (time_arr b) frame = Some tf ->
  nth_error (norm_arr b) frame = Some nf ->
  exists p,
    update b frame maxv = Some p
    /\ (0 < V0 < 1e5 -> (exists xi, In xi x /\ Rabs xi <= 0.04) ->
        curve_potential p = map (V_drawn V0 maxv) x)
    /\ ((forall xi, In xi x -> 0.07 < Rabs xi) ->
        curve_potential p = map (fun _ => 1e6) x).
Proof.
  intros HN Hy Hlen Ht Hn.
  destruct (update_total b frame maxv y tf nf HN Hy Hlen Ht Hn)
    as (sf & Hsf & Hu).
  eexists. split; [exact Hu |]. cbn [curve_potential].
  rewrite V_map in *. unfold scale_of in Hsf. split.
  - intros HV0 (xb & Hxb & Habs).
    assert (Hb : V_region V0 xb = V0).
    { unfold V_region. destruct (Rlt_dec 0.07 (Rabs xb)); [lra |].
      destruct (Rlt_dec 0.04 (Rabs xb)); [lra | reflexivity]. }
    assert (Hinb : In V0 (filter (fun v => Rltb v 1e5) (map (V_region V0) x))).
    { apply filter_In. split.
      - apply in_map_iff. exists xb. now split.
      - apply Rltb_true_iff. lra. }
    assert (Hex : existsb (fun v => Rltb v 1e5) (map (V_region V0) x) = true).
    { apply existsb_exists. exists V0. apply filter_In in Hinb. exact Hinb. }
    rewrite Hex in Hsf.
    destruct (np_max (filter _ _)) as [mx |] eqn:Emx; [| discriminate].
    cbn [bind] in Hsf. injection Hsf as <-.
    apply np_max_spec in Emx. destruct Emx as (Hmx_in & Hmx_all).
    assert (Hmx : mx = V0).
    { rewrite Forall_forall in Hmx_all. specialize (Hmx_all V0 Hinb).
      apply filter_In in Hmx_in. destruct Hmx_in as (Hmx_in & Hlt).
      apply Rltb_true_iff in Hlt. apply in_map_iff in Hmx_in.
      destruct Hmx_in as (xi & Hxi & _).
      destruct (V_region_values V0 xi) as [E1 | [E1 | E1]]; lra. }
    subst mx. rewrite map_map. apply map_ext. intros xi.
    unfold V_region, V_drawn.
    destruct (Rlt_dec 0.07 (Rabs xi)); [reflexivity |].
    destruct (Rlt_dec 0.04 (Rabs xi)); [ring |]. field. lra.
  - intros Hwall.
    assert (Hex : existsb (fun v => Rltb v 1e5) (map (V_region V0) x) = false).
    { apply not_true_is_false. intros Hex. apply existsb_exists in Hex.
      destruct Hex as (v & Hin & Hv). apply Rltb_true_iff in Hv.
      apply in_map_iff in Hin. destruct Hin as (xi & <- & Hxi).
      specialize (Hwall xi Hxi). unfold V_region in Hv.
      destruct (Rlt_dec 0.07 (Rabs xi)); lra. }
    rewrite Hex in Hsf. injection Hsf as <-.
    rewrite map_map. apply map_ext_in. intros xi Hxi.
    specialize (Hwall xi Hxi). unfold V_region.
    destruct (Rlt_dec 0.07 (Rabs xi)); lra.
Qed.

(* ------------------------------------------------------------------------- *)
(** ** Composition and superposition *)
(* ------------------------------------------------------------------------- *)

(** X18. Potential steps add up in their duration, whatever the reference
    times: [Vop] for [a] and then for [b] is [Vop] for [a + b]; and [Vop]
    for [a] and then for [-a] returns the wavefunction it started from. *)
Theorem Vop_additivity (psi : list complex) (xs : list R) (t1 t2 t3 a b : R) :
  length xs = length psi ->
  exists psi1 psi2,
    Vop psi xs t1 a = Some psi1
    /\ Vop psi1 xs t2 b = Some psi2
    /\ Vop psi xs t3 (a + b) = Some psi2
    /\ Vop psi1 xs t2 (- a) = Some psi.
Proof.
  intros Hlen.
  assert (Hkv : length (map (V_region V0) xs) = length psi)
    by now rewrite length_map.
  set (p1 := zipWith Cmult psi
               (map (fun v => cis (- (v * a) / hbar)) (map (V_region V0) xs))).
  assert (Hp1 : Vop psi xs t1 a = Some p1).
  { rewrite Vop_total by assumption. now rewrite V_map. }
  assert (Hlen1 : length xs = length p1).
  { unfold p1. rewrite zipWith_length; [assumption |].
    now rewrite length_map. }
  assert (Hcomp : forall t c,
             Vop p1 xs t c = Vop psi xs t3 (a + c)).
  { intros t c. rewrite !Vop_total by assumption. rewrite !V_map.
    unfold p1. rewrite phase_mul_compose. do 2 f_equal.
    apply map_ext. intros v. f_equal. unfold Rdiv. ring. }
  exists p1, (zipWith Cmult psi
                (map (fun v => cis (- (v * (a + b)) / hbar))
                     (map (V_region V0) xs))).
  split; [exact Hp1 |].
  assert (Hab : Vop psi xs t3 (a + b)
                = Some (zipWith Cmult psi
                          (map (fun v => cis (- (v * (a + b)) / hbar))
                               (map (V_region V0) xs)))).
  { rewrite Vop_total by assumption. now rewrite V_map. }
  split; [now rewrite Hcomp |]. split; [exact Hab |].
  rewrite Hcomp. replace (a + - a) with 0 by ring. now apply Vop_zero.
Qed.

Lemma zipWith_nth {A B D : Type} (g : A -> B -> D) (a : list A) (b : list B)
    (i : nat) (da : A) (db : B) (dd : D) :
  (i < length a)%nat -> length b = length a ->
  nth i (zipWith g a b) dd = g (nth i a da) (nth i b db).
Proof.
  revert b i. induction a as [| u a IH]; intros [| v b] i Hi Hlen;
    simpl in *; try lia.
  destruct i as [| i]; [reflexivity |]. apply IH; lia.
Qed.

Lemma superpose_length (c1 c2 : complex) (a b : list complex) :
  length b = length a -> length (superpose c1 a c2 b) = length a.
Proof.
  intros H. unfold superpose.
  rewrite zipWith_length; now rewrite !length_map.
Qed.

Lemma superpose_nth (c1 c2 : complex) (a b : list complex) (i : nat) :
  (i < length a)%nat -> length b = length a ->
  nth i (superpose c1 a c2 b) Czero
  = Cplus (Cmult c1 (nth i a Czero)) (Cmult c2 (nth i b Czero)).
Proof.
  intros Hi H. unfold superpose.
  rewrite (zipWith_nth Cplus _ _ i (Cmult c1 Czero) (Cmult c2 Czero))
    by (now rewrite ?length_map).
  now rewrite !(map_nth (Cmult _)).
Qed.

Lemma dft_superpose (c1 c2 : complex) (a b : list complex) :
  length b = length a ->
  dft (superpose c1 a c2 b) = superpose c1 (dft a) c2 (dft b).
Proof.
  intros H. apply nth_ext with (d := Czero) (d' := Czero).
  - rewrite dft_length, !superpose_length; rewrite ?dft_length; congruence.
  - intros k Hk. rewrite dft_length, superpose_length in Hk by assumption.
    rewrite superpose_nth by (rewrite !dft_length; congruence).
    rewrite !dft_nth by (rewrite ?superpose_length; congruence).
    rewrite superpose_length, H by assumption.
    rewrite <- !Csum_mult_l, <- Csum_plus. apply Csum_ext. intros i Hi.
    rewrite superpose_nth by assumption.
    generalize (nth i a Czero), (nth i b Czero),
      (cis (- (2 * PI * INR i * INR k / INR (length a)))). cring.
Qed.

Lemma idft_superpose (c1 c2 : complex) (a b : list complex) :
  length b = length a ->
  idft (superpose c1 a c2 b) = superpose c1 (idft a) c2 (idft b).
Proof.
  intros H. apply nth_ext with (d := Czero) (d' := Czero).
  - rewrite idft_length, !superpose_length; rewrite ?idft_length; congruence.
  - intros k Hk. rewrite idft_length, superpose_length in Hk by assumption.
    rewrite superpose_nth by (rewrite !idft_length; congruence).
    rewrite !idft_nth by (rewrite ?superpose_length; congruence).
    rewrite superpose_length, H by assumption.
    set (r := 1 / INR (length a)).
    transitivity (Cscale r (Cplus
       (Cmult c1 (Csum (length a) (fun i =>
          Cmult (nth i a Czero) (cis (2 * PI * INR k * INR i / INR (length a))))))
       (Cmult c2 (Csum (length a) (fun i =>
          Cmult (nth i b Czero) (cis (2 * PI * INR k * INR i / INR (length a)))))))).
    + f_equal. rewrite <- !Csum_mult_l, <- Csum_plus. apply Csum_ext.
      intros i Hi. rewrite superpose_nth by assumption.
      generalize (nth i a Czero), (nth i b Czero),
        (cis (2 * PI * INR k * INR i / INR (length a))). cring.
    + generalize (Csum (length a) (fun i =>
          Cmult (nth i a Czero) (cis (2 * PI * INR k * INR i / INR (length a))))),
        (Csum (length a) (fun i =>
          Cmult (nth i b Czero) (cis (2 * PI * INR k * INR i / INR (length a))))).
      generalize r. cring.
Qed.

Lemma zipWith_Cmult_superpose (c1 c2 : complex) (a b ph : list complex) :
  zipWith Cmult (superpose c1 a c2 b) ph
  = superpose c1 (zipWith Cmult a ph) c2 (zipWith Cmult b ph).
Proof.
  unfold superpose. revert b ph.
  induction a as [| u a IH]; intros [| v b] [| w ph]; simpl; try reflexivity.
  rewrite IH. f_equal. cring.
Qed.

(** X19. Superposition: [Top] and [Vop] are linear. On two wavefunctions of
    the grid's size, the step of [c1 * psi + c2 * phi] is [c1] times the step
    of [psi] plus [c2] times the step of [phi]. *)
Theorem propagators_linear (c1 c2 : complex) (psi phi : list complex)
    (t tau : R) :
  length psi = Nx -> length phi = Nx -> Nx <> 0%nat -> dx <> 0 ->
  exists Tpsi Tphi Vpsi Vphi,
    Top psi tau = Some Tpsi /\ Top phi tau = Some Tphi
    /\ Top (superpose c1 psi c2 phi) tau = Some (superpose c1 Tpsi c2 Tphi)
    /\ Vop psi x t tau = Some Vpsi /\ Vop phi x t tau = Some Vphi
    /\ Vop (superpose c1 psi c2 phi) x t tau
       = Some (superpose c1 Vpsi c2 Vphi).
Proof.
  intros Hpsi Hphi HN Hd.
  assert (Hsup : length (superpose c1 psi c2 phi) = Nx)
    by (rewrite superpose_length; congruence).
  exists (Top_fn psi tau), (Top_fn phi tau), (Vop_fn psi tau), (Vop_fn phi tau).
  rewrite !Top_eq, !Vop_eq by assumption.
  repeat split; f_equal.
  - unfold Top_fn.
    rewrite dft_superpose, zipWith_Cmult_superpose by congruence.
    apply idft_superpose.
    rewrite !zipWith_length; rewrite ?dft_length, ?length_map, ?k_vec_length;
      congruence.
  - unfold Vop_fn. apply zipWith_Cmult_superpose.
Qed.

Lemma Rsum_pos_entry (l : list R) :
  0 < Rsum l -> exists d, In d l /\ 0 < d.
Proof.
  induction l as [| u l IH]; intros H.
  - simpl in H. lra.
  - change (0 < u + Rsum l) in H.
    destruct (Rlt_dec 0 u) as [Hu | Hu]; [exists u; split; [now left | exact Hu] |].
    destruct IH as (d & Hd & Hpos); [lra |].
    exists d. split; [now right | exact Hpos].
Qed.

(** X20. The animation stays inside its axes: after the run,
    [np.amax(density_prob)] exists and is positive, and with it as [maxv]
    every frame [0 .. Nt/f] draws a density curve whose values all lie
    between the y-limits 0 and [maxv]. *)
Theorem animation_within_limits :
  Nx <> 0%nat -> 0 < L -> f <> 0%nat ->
  exists psi b log maxv,
    main = Some (psi, b, log)
    /\ show_maxv (density_prob b) = Some maxv
    /\ 0 < maxv
    /\ forall frame, (frame <= Nt / f)%nat ->
         exists p,
           update b frame maxv = Some p
           /\ ylim p = (0, maxv)
           /\ Forall (fun d => 0 <= d <= maxv) (curve_density p).
Proof.
  intros HN HL Hf.
  assert (HL' : L <> 0) by lra.
  destruct (main_slots HN HL Hf)
    as (psi & b & log & E & HDl & HTl & HNl & Hslots & _).
  destruct (Hslots 0%nat (Nat.le_0_l _))
    as (row0 & Hr0 & Hlen0 & Hnn0 & _ & Hsum0 & _).
  assert (Hin0 : exists d, In d row0 /\ 0 < d).
  { destruct (Rsum_pos_entry row0) as (d & Hd & Hpos); [| now exists d].
    assert (0 < dx).
    { unfold dx. apply Rdiv_lt_0_compat; [assumption |].
      apply lt_0_INR. lia. }
    nra. }
  destruct Hin0 as (d0 & Hd0 & Hd0pos).
  assert (Hcat : In d0 (concat (density_prob b))).
  { apply in_concat. exists row0. split; [| assumption].
    eapply nth_error_In; eassumption. }
  destruct (np_max_nonempty (concat (density_prob b))) as (maxv & Hmax).
  { intros Hnil. rewrite Hnil in Hcat. contradiction. }
  pose proof (np_max_spec _ _ Hmax) as (_ & Hall).
  rewrite Forall_forall in Hall.
  exists psi, b, log, maxv. split; [exact E |]. split; [exact Hmax |].
  split; [specialize (Hall d0 Hcat); lra |].
  intros frame Hfr.
  destruct (Hslots frame Hfr) as (row & H1 & H2 & H3 & H4 & _ & H6).
  destruct (update_total b frame maxv row _ _ HN H1 H2 H6 H4) as (sf & _ & Hu).
  eexists. split; [exact Hu |]. cbn [ylim curve_density].
  split; [reflexivity |].
  apply Forall_forall. intros d Hd. rewrite Forall_forall in H3. split.
  - now apply H3.
  - apply Hall, in_concat. exists row. split; [| assumption].
    eapply nth_error_In; eassumption.
Qed.

(* ------------------------------------------------------------------------- *)
(** ** The sampling schedule *)
(* ------------------------------------------------------------------------- *)

(** One outer iteration on a well-formed state: it returns, logs the three
    writes, leaves in slot [nt + 1] the norm and the density of the
    wavefunction it returns and the advanced clock, and changes no other
    slot. *)
Lemma outer_body_writes (M nt : nat) (psi1 : list complex) (b1 : buffers)
    (log1 : list event) (t1 : R) :
  Nx <> 0%nat -> dx <> 0 ->
  length psi1 = Nx -> bufs_shape M b1 -> (nt + 1 < M)%nat ->
  nth_error (time_arr b1) nt = Some t1 ->
  exists psi2 b2,
    outer_body nt (psi1, b1, log1)
    = Some (psi2, b2,
            log1 ++ [WriteNorm (nt + 1); WriteDensity (nt + 1);
                     WriteTime (nt + 1)])
    /\ nth_error (norm_arr b2) (nt + 1) = Some (norm psi2)
    /\ nth_error (density_prob b2) (nt + 1)
       = Some (map (fun z => Cabs z ^ 2) psi2)
    /\ nth_error (time_arr b2) (nt + 1) = Some (t1 + INR f * dt)
    /\ forall k, k <> (nt + 1)%nat ->
         nth_error (norm_arr b2) k = nth_error (norm_arr b1) k
         /\ nth_error (density_prob b2) k = nth_error (density_prob b1) k
         /\ nth_error (time_arr b2) k = nth_error (time_arr b1) k.
Proof.
  intros HN Hd Hpsi Hshape Hnt Ht1.
  pose proof Hshape as (HD & _ & HT & HNl).
  do 2 eexists. split.
  - apply (outer_body_total HN Hd M); eassumption.
  - cbn [norm_arr density_prob time_arr].
    rewrite !upd_nth_error_same by lia.
    repeat (split; [reflexivity |]).
    intros k Hk. rewrite !upd_nth_error_other by lia. now repeat split.
Qed.

(** C6. Sampling schedule: [init] allocates the three buffers with
    [Nt/f + 1] slots; [runsplit] makes [Nt/f] outer iterations, each writing
    slot [nt + 1] of the norm, density and time buffers and no other slot,
    so each buffer is written at the indices 1, 2, ..., Nt/f, once each and
    in this order; after the run slot [k] holds the density and the norm of
    the wavefunction after [k * f] steps, slot 0 is as [init] left it, and
    the time recorded at sample [k] is [k * f * dt] for every [k <= Nt/f]. *)
Theorem sampling_schedule :
  Nx <> 0%nat -> L <> 0 -> f <> 0%nat ->
  exists density0 time0 nrm0 psi0 psi b log,
    init = Some (density0, time0, nrm0, psi0)
    /\ length density0 = (Nt / f + 1)%nat
    /\ length time0 = (Nt / f + 1)%nat
    /\ length nrm0 = (Nt / f + 1)%nat
    /\ main = Some (psi, b, log)
    /\ length (density_prob b) = (Nt / f + 1)%nat
    /\ length (time_arr b) = (Nt / f + 1)%nat
    /\ length (norm_arr b) = (Nt / f + 1)%nat
    /\ log = flat_map
               (fun nt => [WriteNorm (nt + 1); WriteDensity (nt + 1);
                           WriteTime (nt + 1)])
               (seq 0 (Nt / f))
    /\ written_norm log = seq 1 (Nt / f)
    /\ written_density log = seq 1 (Nt / f)
    /\ written_time log = seq 1 (Nt / f)
    /\ (forall k, (k <= Nt / f)%nat ->
          nth_error (time_arr b) k = Some (INR k * INR f * dt))
    /\ (forall k, (1 <= k <= Nt / f)%nat ->
          exists psi_k,
            strang_steps (k * f) 0 (map RtoC psi0) = Some psi_k
            /\ nth_error (density_prob b) k
               = Some (map (fun z => Cabs z ^ 2) psi_k)
            /\ nth_error (norm_arr b) k = Some (norm psi_k))
    /\ nth_error (density_prob b) 0 = nth_error density0 0
    /\ nth_error (norm_arr b) 0 = nth_error nrm0 0
    /\ nth_error (time_arr b) 0 = nth_error time0 0
    /\ (forall (M nt : nat) (psi1 : list complex) (b1 : buffers)
               (log1 : list event) (t1 : R),
          length psi1 = Nx -> bufs_shape M b1 -> (nt + 1 < M)%nat ->
          nth_error (time_arr b1) nt = Some t1 ->
          exists psi2 b2,
            outer_body nt (psi1, b1, log1)
            = Some (psi2, b2,
                    log1 ++ [WriteNorm (nt + 1); WriteDensity (nt + 1);
                             WriteTime (nt + 1)])
            /\ nth_error (norm_arr b2) (nt + 1) = Some (norm psi2)
            /\ nth_error (density_prob b2) (nt + 1)
               = Some (map (fun z => Cabs z ^ 2) psi2)
            /\ nth_error (time_arr b2) (nt + 1) = Some (t1 + INR f * dt)
            /\ forall k, k <> (nt + 1)%nat ->
                 nth_error (norm_arr b2) k = nth_error (norm_arr b1) k
                 /\ nth_error (density_prob b2) k
                    = nth_error (density_prob b1) k
                 /\ nth_error (time_arr b2) k = nth_error (time_arr b1) k).
Proof.
  intros HN HL Hf. pose proof (dx_neq_0 HN HL) as Hd.
  destruct (main_total HN HL Hf) as ([[psi b] log] & E & Hinv).
  destruct (main_trace HN HL Hf) as (st & E' & _ & Htr).
  rewrite E in E'. injection E' as <-.
  destruct Hinv as (_ & (HDl & _ & HTl & HNl) & _ & Htime & _ & Hlog).
  destruct Htr as (_ & Hslots & Hframe).
  destruct (written_seq 0 (Nt / f)) as (W1 & W2 & W3).
  destruct (Hframe 0%nat (or_introl eq_refl)) as (F1 & F2 & F3).
  assert (Hlen0 : length (map RtoC psi_init) = Nx)
    by now rewrite length_map, psi_init_length.
  do 4 eexists. exists psi, b, log.
  split; [now apply init_total |].
  split; [cbn [length]; rewrite repeat_length; lia |].
  split; [apply repeat_length |].
  split; [cbn [length]; rewrite repeat_length; lia |].
  split; [exact E |].
  do 3 (split; [assumption |]).
  split; [exact Hlog |].
  rewrite Hlog. do 3 (split; [assumption |]).
  split; [exact Htime |].
  split.
  { intros k Hk. destruct (Hslots k Hk) as (HDk & HNk).
    exists (Nat.iter k outer_fn (map RtoC psi_init)).
    split; [| now split].
    rewrite strang_steps_total by assumption. f_equal. symmetry.
    now apply iter_outer_fn_strang. }
  do 3 (split; [assumption |]).
  intros M nt psi1 b1 log1 t1 Hpsi1 Hshape Hnt Ht1.
  now apply (outer_body_writes M).
Qed.

(* ------------------------------------------------------------------------- *)
(** ** Bounds on the initial state, and the potential on the grid *)
(* ------------------------------------------------------------------------- *)

Lemma Rsum_ge_entry (l : list R) (d : R) :
  Forall (fun v => 0 <= v) l -> In d l -> d <= Rsum l.
Proof.
  intros Hall. induction Hall as [| u l Hu Hall IH]; intros Hin;
    [contradiction |].
  change (d <= u + Rsum l).
  assert (Hnn : 0 <= Rsum l).
  { clear IH Hin. induction Hall as [| w t Hw Ht IHt]; [simpl; lra |].
    change (0 <= w + Rsum t). lra. }
  destruct Hin as [-> | Hin]; [lra |].
  specialize (IH Hin). lra.
Qed.

(** X9. With a non-empty grid and [L > 0] the wavefunction [init] returns
    has no negative entry, no grid cell carries more than the whole
    probability ([psi_i^2 * dx <= 1]), and the same bounds hold for every
    entry of the initial density row. *)
Theorem init_psi_bounds :
  Nx <> 0%nat -> 0 < L -> f <> 0%nat ->
  exists density time nrm psi row0,
    init = Some (density, time, nrm, psi)
    /\ Forall (fun p => 0 <= p /\ p ^ 2 * dx <= 1) psi
    /\ nth_error density 0 = Some row0
    /\ Forall (fun d => 0 <= d /\ d * dx <= 1) row0.
Proof.
  intros HN HL Hf. do 5 eexists. split; [now apply init_total |].
  assert (Hdx : 0 < dx).
  { unfold dx. apply Rdiv_lt_0_compat; [assumption |]. apply lt_0_INR. lia. }
  assert (Hpos : forall p, In p psi_init -> 0 < p).
  { intros p Hp. unfold psi_init in Hp.
    rewrite map_map in Hp. apply in_map_iff in Hp.
    destruct Hp as (xi & <- & _).
    apply Rdiv_lt_0_compat; [apply exp_pos |].
    apply sqrt_lt_R0. now apply norm_real_gaussian_pos. }
  assert (Hcell : forall p, In p psi_init -> Rabs p ^ 2 * dx <= 1).
  { intros p Hp. rewrite <- (psi_init_norm HN HL). unfold norm_real.
    apply Rmult_le_compat_r; [lra |].
    apply Rsum_ge_entry.
    - apply Forall_forall. intros d Hd. apply in_map_iff in Hd.
      destruct Hd as (q & <- & _). rewrite pow2_abs. nra.
    - apply in_map_iff. now exists p. }
  split; [| split; [reflexivity |]].
  - apply Forall_forall. intros p Hp. split.
    + specialize (Hpos p Hp). lra.
    + rewrite <- pow2_abs. now apply Hcell.
  - apply Forall_forall. intros d Hd. apply in_map_iff in Hd.
    destruct Hd as (p & <- & Hp). split.
    + rewrite pow2_abs. nra.
    + now apply Hcell.
Qed.

(** X21. The potential sampled on the grid is mirror-symmetric away from
    the region boundaries: with at least two grid points, entry
    [Nx - 1 - i] of [V(x, t)] equals entry [i] whenever [|x_i|] is more than
    1e-9 away from both 0.04 and 0.07. *)
Theorem V_on_grid_symmetric (t : R) (i : nat) :
  (2 <= Nx)%nat -> (i < Nx)%nat ->
  1e-9 < Rabs (Rabs (nth i x 0) - 0.04) ->
  1e-9 < Rabs (Rabs (nth i x 0) - 0.07) ->
  nth (Nx - 1 - i) (V x t V0 6) 0 = nth i (V x t V0 6) 0.
Proof.
  intros HN Hi _ _. rewrite V_map.
  rewrite !(nth_indep _ 0 (V_region V0 0))
    by (rewrite length_map, x_length; lia).
  rewrite !(map_nth (V_region V0)), x_symmetric by assumption.
  unfold V_region. now rewrite Rabs_Ropp.
Qed.

End Amoniaco.

(** X2. [V] ignores its time and type arguments and never returns a cell of
    [np.empty_like] unassigned: two calls on the same positions and barrier
    height agree whatever the fresh cells held, the result has the size of
    its argument, and every value is 1e6, 0 or the barrier height. *)
Theorem V_ignores_time_and_memory (u1 u2 : nat -> R) (xs : list R)
    (t1 t2 B : R) (type1 type2 : nat) :
  V u1 xs t1 B type1 = V u2 xs t2 B type2
  /\ length (V u1 xs t1 B type1) = length xs
  /\ Forall (fun v => v = 1e6 \/ v = 0 \/ v = B) (V u1 xs t1 B type1).
Proof.
  rewrite !V_map. split; [reflexivity |]. split; [apply length_map |].
  apply Forall_forall. intros v Hv. apply in_map_iff in Hv.
  destruct Hv as (xi & <- & _). apply V_region_values.
Qed.

(* ------------------------------------------------------------------------- *)
(** ** Instances *)
(* ------------------------------------------------------------------------- *)

(** The configured run: L = 0.2, Nx = 1000, Nt = 10000, dt = 1e-5, f = 10,
    hbar = 1, m = 1, V0 = 0.25; fresh cells hold 0. *)

Set Warnings "-abstract-large-number".

Lemma norm_preservation_witness :
  (exists psi',
      Top 0.2 1000 1 1 (repeat Cone 1000) 1e-5 = Some psi'
      /\ norm 0.2 1000 psi' = norm 0.2 1000 (repeat Cone 1000))
  /\ (exists psi',
        Vop 1 0.25 (fun _ => 0) (repeat Cone 1000) (x 0.2 1000) 0 1e-5 = Some psi'
        /\ norm 0.2 1000 psi' = norm 0.2 1000 (repeat Cone 1000))
  /\ (exists psi b log,
        main 0.2 1000 10000 1e-5 10 1 1 0.25 (fun _ => 0) = Some (psi, b, log)
        /\ length (norm_arr b) = (10000 / 10 + 1)%nat
        /\ forall k, (k <= 10000 / 10)%nat ->
             exists v, nth_error (norm_arr b) k = Some v
                       /\ Rabs (v - 1) < 1e-3).
Proof.
  destruct (norm_preservation 0.2 1000 10000 1e-5 10 1 1 0.25 (fun _ => 0))
    as (HT & HV & Hrun).
  split; [| split].
  - apply HT.
    + apply repeat_length.
    + discriminate.
    + apply dx_neq_0; [discriminate | lra].
  - apply HV. now rewrite x_length, repeat_length.
  - apply Hrun; [discriminate | lra | discriminate].
Defined.

Lemma strang_equivalence_witness :
  exists psi' b' log',
    outer_body 0.2 2 1e-5 3 1 1 0.25 (fun _ => 0) 0
      ([Cone; Ci], mkBuffers [[0; 0]; [0; 0]] [0; 0] [1; 0], [])
    = Some (psi', b', log')
    /\ strang_steps 0.2 2 1e-5 1 1 0.25 (fun _ => 0) 3 0 [Cone; Ci] = Some psi'.
Proof.
  apply (strang_equivalence 0.2 2 1e-5 3 1 1 0.25 (fun _ => 0) 2 0
           [Cone; Ci] (mkBuffers [[0; 0]; [0; 0]] [0; 0] [1; 0]) [] 0 0).
  - reflexivity.
  - discriminate.
  - apply dx_neq_0; [discriminate | lra].
  - unfold bufs_shape. simpl. repeat split; repeat constructor.
  - simpl. lia.
  - reflexivity.
Defined.

Lemma potential_regions_witness :
  V_scalar (fun _ => 0) 0.09 0 0.25 6 = 1e6
  /\ V_scalar (fun _ => 0) (- 0.06) 0 0.25 6 = 0
  /\ V_scalar (fun _ => 0) 0.01 0 0.25 6 = 0.25.
Proof.
  destruct (potential_regions (fun _ => 0)) as (Hreg & _ & _).
  split; [| split].
  - apply (Hreg 0.09 0). rewrite Rabs_pos_eq; lra.
  - apply (Hreg (- 0.06) 0). rewrite Rabs_left; lra.
  - apply (Hreg 0.01 0). rewrite Rabs_pos_eq; lra.
Defined.

Lemma init_postcondition_witness :
  exists density time nrm psi,
    init 0.2 1000 10000 10 = Some (density, time, nrm, psi)
    /\ psi = map (fun xi =>
                    exp (- ((xi - 0.06) ^ 2) / (2 * 0.005 ^ 2))
                    / sqrt (Rsum (map (fun xj =>
                                Rabs (exp (- ((xj - 0.06) ^ 2) / (2 * 0.005 ^ 2))) ^ 2)
                                   (x 0.2 1000))
                            * dx 0.2 1000)) (x 0.2 1000)
    /\ Rsum (map (fun p => Rabs p ^ 2) psi) * dx 0.2 1000 = 1
    /\ nth_error density 0 = Some (map (fun p => Rabs p ^ 2) psi)
    /\ nth_error nrm 0 = Some (Rsum (map (fun p => Rabs p ^ 2) psi) * dx 0.2 1000)
    /\ nth_error time 0 = Some 0
    /\ length density = (10000 / 10 + 1)%nat
    /\ length time = (10000 / 10 + 1)%nat
    /\ length nrm = (10000 / 10 + 1)%nat.
Proof.
  apply (init_postcondition 0.2 1000 10000 10); [discriminate | lra | discriminate].
Defined.

Lemma grid_spacing_is_not_dx_witness :
  length (x 0.2 1000) = 1000%nat
  /\ (forall i, (i < 1000)%nat ->
        nth (1000 - 1 - i) (x 0.2 1000) 0 = - nth i (x 0.2 1000) 0)
  /\ (forall i, (S i < 1000)%nat ->
        nth (S i) (x 0.2 1000) 0 - nth i (x 0.2 1000) 0 = 0.2 / INR (1000 - 1)
        /\ nth i (x 0.2 1000) 0 < nth (S i) (x 0.2 1000) 0
        /\ nth (S i) (x 0.2 1000) 0 - nth i (x 0.2 1000) 0 <> dx 0.2 1000).
Proof.
  apply (grid_spacing_is_not_dx 0.2 1000); [lia | lra].
Defined.

Lemma sampling_schedule_witness :
  exists density0 time0 nrm0 psi0 psi b log,
    init 0.2 1000 10000 10 = Some (density0, time0, nrm0, psi0)
    /\ length density0 = (10000 / 10 + 1)%nat
    /\ length time0 = (10000 / 10 + 1)%nat
    /\ length nrm0 = (10000 / 10 + 1)%nat
    /\ main 0.2 1000 10000 1e-5 10 1 1 0.25 (fun _ => 0) = Some (psi, b, log)
    /\ length (density_prob b) = (10000 / 10 + 1)%nat
    /\ length (time_arr b) = (10000 / 10 + 1)%nat
    /\ length (norm_arr b) = (10000 / 10 + 1)%nat
    /\ log = flat_map
               (fun nt => [WriteNorm (nt + 1); WriteDensity (nt + 1);
                           WriteTime (nt + 1)])
               (seq 0 (10000 / 10))
    /\ written_norm log = seq 1 (10000 / 10)
    /\ written_density log = seq 1 (10000 / 10)
    /\ written_time log = seq 1 (10000 / 10)
    /\ (forall k, (k <= 10000 / 10)%nat ->
          nth_error (time_arr b) k = Some (INR k * INR 10 * 1e-5))
    /\ (forall k, (1 <= k <= 10000 / 10)%nat ->
          exists psi_k,
            strang_steps 0.2 1000 1e-5 1 1 0.25 (fun _ => 0) (k * 10) 0
              (map RtoC psi0) = Some psi_k
            /\ nth_error (density_prob b) k
               = Some (map (fun z => Cabs z ^ 2) psi_k)
            /\ nth_error (norm_arr b) k = Some (norm 0.2 1000 psi_k))
    /\ nth_error (density_prob b) 0 = nth_error density0 0
    /\ nth_error (norm_arr b) 0 = nth_error nrm0 0
    /\ nth_error (time_arr b) 0 = nth_error time0 0
    /\ (forall (M nt : nat) (psi1 : list complex) (b1 : buffers)
               (log1 : list event) (t1 : R),
          length psi1 = 1000%nat -> bufs_shape 1000 M b1 -> (nt + 1 < M)%nat ->
          nth_error (time_arr b1) nt = Some t1 ->
          exists psi2 b2,
            outer_body 0.2 1000 1e-5 10 1 1 0.25 (fun _ => 0) nt
              (psi1, b1, log1)
            = Some (psi2, b2,
                    log1 ++ [WriteNorm (nt + 1); WriteDensity (nt + 1);
                             WriteTime (nt + 1)])
            /\ nth_error (norm_arr b2) (nt + 1) = Some (norm 0.2 1000 psi2)
            /\ nth_error (density_prob b2) (nt + 1)
               = Some (map (fun z => Cabs z ^ 2) psi2)
            /\ nth_error (time_arr b2) (nt + 1) = Some (t1 + INR 10 * 1e-5)
            /\ forall k, k <> (nt + 1)%nat ->
                 nth_error (norm_arr b2) k = nth_error (norm_arr b1) k
                 /\ nth_error (density_prob b2) k
                    = nth_error (density_prob b1) k
                 /\ nth_error (time_arr b2) k = nth_error (time_arr b1) k).
Proof.
  apply (sampling_schedule 0.2 1000 10000 1e-5 10 1 1 0.25 (fun _ => 0));
    [discriminate | lra | discriminate].
Defined.

Lemma kinetic_round_trip_witness :
  exists psi',
    Top 0.2 2 1 1 [Cone; Ci] (- 1e-5 / 2) = Some psi'
    /\ Top 0.2 2 1 1 psi' (- (- 1e-5 / 2)) = Some [Cone; Ci].
Proof.
  apply (kinetic_round_trip 0.2 2 1 1 [Cone; Ci] (- 1e-5 / 2)).
  - reflexivity.
  - discriminate.
  - apply dx_neq_0; [discriminate | lra].
Defined.

Lemma zero_duration_identity_witness :
  Top 0.2 2 1 1 [Cone; Ci] 0 = Some [Cone; Ci]
  /\ Vop 1 0.25 (fun _ => 0) [Cone; Ci] (x 0.2 2) 0 0 = Some [Cone; Ci].
Proof.
  destruct (zero_duration_identity 0.2 2 1 1 0.25 (fun _ => 0)) as (HT & HV).
  split.
  - apply HT; [reflexivity | discriminate |].
    apply dx_neq_0; [discriminate | lra].
  - apply HV. reflexivity.
Defined.

Lemma kinetic_additivity_witness :
  (exists psi1 psi2,
      Top 0.2 2 1 1 [Cone; Ci] 0.5 = Some psi1
      /\ Top 0.2 2 1 1 psi1 0.25 = Some psi2
      /\ Top 0.2 2 1 1 [Cone; Ci] (0.5 + 0.25) = Some psi2
      /\ fft psi2
         = Some (zipWith Cmult (dft [Cone; Ci])
                   (map (fun k => cis (- (1 * k ^ 2 * (0.5 + 0.25)) / (2 * 1)))
                        (k_vec 0.2 2))))
  /\ (exists psi1 psi2,
        Top 0.2 2 1 1 [Cone; Ci] (- (1e-5) / 2) = Some psi1
        /\ Top 0.2 2 1 1 psi1 1e-5 = Some psi2
        /\ Top 0.2 2 1 1 [Cone; Ci] (1e-5 / 2) = Some psi2).
Proof.
  apply (kinetic_additivity 0.2 2 1e-5 1 1 [Cone; Ci] 0.5 0.25).
  - reflexivity.
  - discriminate.
  - apply dx_neq_0; [discriminate | lra].
Defined.

Lemma Top_raises_iff_witness :
  Top 0.2 2 1 1 [Cone] 0 = None
  /\ (forall psi',
        Top 0.2 2 1 1 [Cone; Ci] 1e-5 = Some psi' -> length psi' = 2%nat).
Proof.
  split.
  - apply (Top_raises_iff 0.2 2 1 1 [Cone] 0).
    right. right. right. split; discriminate.
  - apply (Top_raises_iff 0.2 2 1 1 [Cone; Ci] 1e-5).
Defined.

Lemma Vop_raises_iff_witness :
  Vop 1 0.25 (fun _ => 0) [Cone; Ci; Cone] [0.05; 0.0] 0 1e-5 = None.
Proof.
  apply (Vop_raises_iff 1 0.25 (fun _ => 0) [Cone; Ci; Cone] [0.05; 0.0] 0 1e-5).
  split; discriminate.
Defined.

Lemma Vop_keeps_density_witness :
  exists psi',
    Vop 1 0.25 (fun _ => 0) [Cone; Ci] [0.05; 0.0] 0 1e-5 = Some psi'
    /\ map (fun z => Cabs z ^ 2) psi' = map (fun z => Cabs z ^ 2) [Cone; Ci].
Proof.
  apply (Vop_keeps_density 1 0.25 (fun _ => 0) [Cone; Ci] [0.05; 0.0] 0 1e-5).
  reflexivity.
Defined.

Lemma Top_keeps_momentum_density_witness :
  exists psi' A A',
    Top 0.2 2 1 1 [Cone; Ci] 1e-5 = Some psi'
    /\ fft [Cone; Ci] = Some A /\ fft psi' = Some A'
    /\ map (fun z => Cabs z ^ 2) A' = map (fun z => Cabs z ^ 2) A.
Proof.
  apply (Top_keeps_momentum_density 0.2 2 1 1 [Cone; Ci] 1e-5).
  - reflexivity.
  - discriminate.
  - apply dx_neq_0; [discriminate | lra].
Defined.

Lemma Top_keeps_sum_witness :
  exists psi',
    Top 0.2 2 1 1 [Cone; Ci] 1e-5 = Some psi'
    /\ Csum_list psi' = Csum_list [Cone; Ci].
Proof.
  apply (Top_keeps_sum 0.2 2 1 1 [Cone; Ci] 1e-5).
  - reflexivity.
  - discriminate.
  - apply dx_neq_0; [discriminate | lra].
Defined.

Lemma init_raises_iff_witness : init 0.2 1000 10000 0 = None.
Proof. apply (init_raises_iff 0.2 1000 10000 0). reflexivity. Defined.

Lemma runsplit_raises_witness :
  runsplit 0.2 2 20 1e-5 10 1 1 0.25 (fun _ => 0)
    (mkBuffers [[0; 0]; [0; 0]] [0; 0] [1; 0]) [Cone; Ci] = None.
Proof.
  apply (runsplit_raises 0.2 2 20 1e-5 10 1 1 0.25 (fun _ => 0)).
  right. right. split.
  - apply Nat.div_le_lower_bound; [discriminate | simpl; lia].
  - left. apply Nat.div_le_lower_bound; [discriminate | simpl; lia].
Defined.

Lemma runsplit_frame_witness :
  exists psi' b' log,
    runsplit 0.2 2 2 1e-5 2 1 1 0.25 (fun _ => 0)
      (mkBuffers [[1; 0]; [0; 0]; [7; 7]] [0; 0; 7] [1; 0; 7]) [Cone; Czero]
    = Some (psi', b', log)
    /\ forall k, (k = 0 \/ 2 / 2 < k)%nat ->
         nth_error (density_prob b') k = nth_error [[1; 0]; [0; 0]; [7; 7]] k
         /\ nth_error (time_arr b') k = nth_error [0; 0; 7] k
         /\ nth_error (norm_arr b') k = nth_error [1; 0; 7] k.
Proof.
  apply (runsplit_frame 0.2 2 2 1e-5 2 1 1 0.25 (fun _ => 0) 3 0
           (mkBuffers [[1; 0]; [0; 0]; [7; 7]] [0; 0; 7] [1; 0; 7])
           [Cone; Czero]).
  - discriminate.
  - apply dx_neq_0; [discriminate | lra].
  - discriminate.
  - reflexivity.
  - unfold bufs_shape. simpl. repeat split; repeat constructor.
  - simpl. lia.
  - reflexivity.
Defined.

Lemma runsplit_is_strang_run_witness :
  exists psi' b' log,
    runsplit 0.2 2 5 1e-5 2 1 1 0.25 (fun _ => 0)
      (mkBuffers [[1; 0]; [0; 0]; [0; 0]] [0; 0; 0] [1; 0; 0]) [Cone; Czero]
    = Some (psi', b', log)
    /\ strang_steps 0.2 2 1e-5 1 1 0.25 (fun _ => 0) (5 / 2 * 2) 0 [Cone; Czero]
       = Some psi'
    /\ nth_error (time_arr b') (5 / 2) = Some (0 + INR (5 / 2 * 2) * 1e-5)
    /\ (5 / 2 * 2 = 5 - 5 mod 2)%nat.
Proof.
  apply (runsplit_is_strang_run 0.2 2 5 1e-5 2 1 1 0.25 (fun _ => 0) 3 0 0
           (mkBuffers [[1; 0]; [0; 0]; [0; 0]] [0; 0; 0] [1; 0; 0])
           [Cone; Czero]).
  - discriminate.
  - apply dx_neq_0; [discriminate | lra].
  - discriminate.
  - reflexivity.
  - unfold bufs_shape. simpl. repeat split; repeat constructor.
  - simpl. lia.
  - reflexivity.
Defined.

Lemma density_matches_norm_witness :
  exists psi b log,
    main 0.2 1000 10000 1e-5 10 1 1 0.25 (fun _ => 0) = Some (psi, b, log)
    /\ (forall k, (k <= 10000 / 10)%nat ->
          exists row,
            nth_error (density_prob b) k = Some row
            /\ length row = 1000%nat
            /\ Forall (fun d => 0 <= d) row
            /\ nth_error (norm_arr b) k = Some (Rsum row * dx 0.2 1000)
            /\ Rsum row * dx 0.2 1000 = 1)
    /\ ((10000 / 10)%nat <> 0%nat ->
        nth_error (density_prob b) (10000 / 10)
        = Some (map (fun z => Cabs z ^ 2) psi)).
Proof.
  apply (density_matches_norm 0.2 1000 10000 1e-5 10 1 1 0.25 (fun _ => 0));
    [discriminate | lra | discriminate].
Defined.

Lemma grid_endpoints_witness :
  nth_error (x 0.2 1000) 0 = Some (- (0.2) / 2)
  /\ nth_error (x 0.2 1000) (1000 - 1) = Some (0.2 / 2).
Proof. apply (grid_endpoints 0.2 1000). lia. Defined.

Lemma k_vec_values_witness :
  length (k_vec 0.2 1000) = 1000%nat
  /\ nth 999 (k_vec 0.2 1000) 0
     = (if (999 <? (1000 - 1) / 2 + 1)%nat then INR 999 else INR 999 - INR 1000)
       * (2 * PI / 0.2).
Proof. apply (k_vec_values 0.2 1000 999); [discriminate | lra | lia]. Defined.

Lemma update_frames_witness :
  exists psi b log,
    main 0.2 1000 10000 1e-5 10 1 1 0.25 (fun _ => 0) = Some (psi, b, log)
    /\ (forall frame, (frame <= 10000 / 10)%nat ->
          exists p,
            update 0.2 1000 0.25 (fun _ => 0) b frame 1 = Some p
            /\ title_t p = INR frame * INR 10 * 1e-5
            /\ title_norm p = 1
            /\ nth_error (density_prob b) frame = Some (curve_density p)
            /\ xlim p = (- (0.2) / 2, 0.2 / 2)
            /\ ylim p = (0, 1)
            /\ length (curve_potential p) = 1000%nat)
    /\ (forall frame, (10000 / 10 < frame)%nat ->
          update 0.2 1000 0.25 (fun _ => 0) b frame 1 = None).
Proof.
  apply (update_frames 0.2 1000 10000 1e-5 10 1 1 0.25 (fun _ => 0) 1);
    [lia | lra | discriminate].
Defined.

Lemma update_potential_scaling_witness :
  exists p,
    update 0.2 3 0.25 (fun _ => 0) (mkBuffers [[0; 1; 0]] [0] [1]) 0 5 = Some p
    /\ curve_potential p = map (V_drawn 0.25 5) (x 0.2 3).
Proof.
  destruct (update_potential_scaling 0.2 3 0.25 (fun _ => 0)
              (mkBuffers [[0; 1; 0]] [0] [1]) 0 5 [0; 1; 0] 0 1)
    as (p & Hp & Hbar & _);
    [discriminate | reflexivity | reflexivity | reflexivity | reflexivity |].
  exists p. split; [exact Hp |]. apply Hbar; [lra |].
  exists (nth 1 (x 0.2 3) 0). split.
  - apply nth_In. rewrite x_length. lia.
  - unfold x. rewrite linspace_nth by lia.
    replace (- (0.2) / 2 + INR 1 * ((0.2 / 2 - - (0.2) / 2) / INR (3 - 1))) with 0
      by (simpl; field).
    rewrite Rabs_R0. lra.
Defined.

Lemma Vop_additivity_witness :
  exists psi1 psi2,
    Vop 1 0.25 (fun _ => 0) [Cone; Ci] [0.05; 0.0] 0 1e-5 = Some psi1
    /\ Vop 1 0.25 (fun _ => 0) psi1 [0.05; 0.0] 1 2e-5 = Some psi2
    /\ Vop 1 0.25 (fun _ => 0) [Cone; Ci] [0.05; 0.0] 2 (1e-5 + 2e-5) = Some psi2
    /\ Vop 1 0.25 (fun _ => 0) psi1 [0.05; 0.0] 1 (- (1e-5)) = Some [Cone; Ci].
Proof.
  apply (Vop_additivity 1 0.25 (fun _ => 0) [Cone; Ci] [0.05; 0.0] 0 1 2
           1e-5 2e-5).
  reflexivity.
Defined.

Lemma propagators_linear_witness :
  exists Tpsi Tphi Vpsi Vphi,
    Top 0.2 2 1 1 [Cone; Czero] 1e-5 = Some Tpsi
    /\ Top 0.2 2 1 1 [Czero; Cone] 1e-5 = Some Tphi
    /\ Top 0.2 2 1 1 (superpose Ci [Cone; Czero] Cone [Czero; Cone]) 1e-5
       = Some (superpose Ci Tpsi Cone Tphi)
    /\ Vop 1 0.25 (fun _ => 0) [Cone; Czero] (x 0.2 2) 0 1e-5 = Some Vpsi
    /\ Vop 1 0.25 (fun _ => 0) [Czero; Cone] (x 0.2 2) 0 1e-5 = Some Vphi
    /\ Vop 1 0.25 (fun _ => 0) (superpose Ci [Cone; Czero] Cone [Czero; Cone])
         (x 0.2 2) 0 1e-5
       = Some (superpose Ci Vpsi Cone Vphi).
Proof.
  apply (propagators_linear 0.2 2 1 1 0.25 (fun _ => 0) Ci Cone
           [Cone; Czero] [Czero; Cone] 0 1e-5).
  - reflexivity.
  - reflexivity.
  - discriminate.
  - apply dx_neq_0; [discriminate | lra].
Defined.

Lemma animation_within_limits_witness :
  exists psi b log maxv,
    main 0.2 1000 10000 1e-5 10 1 1 0.25 (fun _ => 0) = Some (psi, b, log)
    /\ show_maxv (density_prob b) = Some maxv
    /\ 0 < maxv
    /\ forall frame, (frame <= 10000 / 10)%nat ->
         exists p,
           update 0.2 1000 0.25 (fun _ => 0) b frame maxv = Some p
           /\ ylim p = (0, maxv)
           /\ Forall (fun d => 0 <= d <= maxv) (curve_density p).
Proof.
  apply (animation_within_limits 0.2 1000 10000 1e-5 10 1 1 0.25 (fun _ => 0));
    [discriminate | lra | discriminate].
Defined.

Lemma init_psi_bounds_witness :
  exists density time nrm psi row0,
    init 0.2 1000 10000 10 = Some (density, time, nrm, psi)
    /\ Forall (fun p => 0 <= p /\ p ^ 2 * dx 0.2 1000 <= 1) psi
    /\ nth_error density 0 = Some row0
    /\ Forall (fun d => 0 <= d /\ d * dx 0.2 1000 <= 1) row0.
Proof.
  apply (init_psi_bounds 0.2 1000 10000 10);
    [discriminate | lra | discriminate].
Defined.

Lemma V_on_grid_symmetric_witness :
  nth (1000 - 1 - 3) (V (fun _ => 0) (x 0.2 1000) 0 0.25 6) 0
  = nth 3 (V (fun _ => 0) (x 0.2 1000) 0 0.25 6) 0.
Proof.
  assert (Hx : - 0.1 < nth 3 (x 0.2 1000) 0 < - 0.099).
  { unfold x. rewrite linspace_nth by lia.
    rewrite !INR_IZR_INZ.
    change (Z.of_nat 3) with 3%Z. change (Z.of_nat (1000 - 1)) with 999%Z.
    lra. }
  apply (V_on_grid_symmetric 0.2 1000 0.25 (fun _ => 0) 0 3); try lia.
  - rewrite (Rabs_left (nth 3 (x 0.2 1000) 0)) by lra.
    rewrite Rabs_pos_eq; lra.
  - rewrite (Rabs_left (nth 3 (x 0.2 1000) 0)) by lra.
    rewrite Rabs_pos_eq; lra.
Defined.

(* ------------------------------------------------------------------------- *)
(** ** Sample values of the embedded numpy functions *)
(* ------------------------------------------------------------------------- *)

(** [np.linspace(-1, 1, 3)], [np.fft.fftfreq(4, 1)], [np.fft.fftfreq(5, 1)],
    [np.fft.fft([1, 1])], and the calls that raise. *)

Example linspace_3 : linspace (-1) 1 3 = [-1; 0; 1].
Proof.
  unfold linspace, set_last. simpl.
  repeat (apply f_equal2; [field |]). reflexivity.
Qed.

Example linspace_1 : linspace (-1) 1 1 = [-1].
Proof. unfold linspace. simpl. f_equal. lra. Qed.

Example fftfreq_4 : fftfreq 4 1 = Some [0; 1 / 4; - 2 / 4; - 1 / 4].
Proof.
  unfold fftfreq. destruct (Req_dec_T (INR 4 * 1) 0) as [E | _].
  - simpl in E. lra.
  - simpl. f_equal. repeat (apply f_equal2; [field |]). reflexivity.
Qed.

Example fftfreq_5 : fftfreq 5 1 = Some [0; 1 / 5; 2 / 5; - 2 / 5; - 1 / 5].
Proof.
  unfold fftfreq. destruct (Req_dec_T (INR 5 * 1) 0) as [E | _].
  - simpl in E. lra.
  - simpl. f_equal. repeat (apply f_equal2; [field |]). reflexivity.
Qed.

Example fftfreq_zero_step : fftfreq 4 0 = None.
Proof.
  unfold fftfreq. destruct (Req_dec_T (INR 4 * 0) 0) as [_ | E];
    [reflexivity | exfalso; apply E; ring].
Qed.

Example dft_2 : dft [Cone; Cone] = [(2, 0); (0, 0)].
Proof.
  unfold dft. cbn [length seq map Csum nth]. rewrite !Cexp_imag.
  cbn [INR].
  replace (- (2 * PI * 0 * 0 / (1 + 1))) with 0 by (field; lra).
  replace (- (2 * PI * 1 * 0 / (1 + 1))) with 0 by (field; lra).
  replace (- (2 * PI * 0 * 1 / (1 + 1))) with 0 by (field; lra).
  replace (- (2 * PI * 1 * 1 / (1 + 1))) with (- PI) by (field; lra).
  unfold cis. rewrite cos_neg, sin_neg, cos_0, sin_0, cos_PI, sin_PI.
  unfold Cmult, Cplus, Czero, Cone. cbn [fst snd].
  repeat (apply f_equal2; [apply f_equal2; ring |]). reflexivity.
Qed.

Example set_at_out_of_range : set_at 2 7 [1; 2] = None.
Proof. reflexivity. Qed.

Example imul_shape_error : imul [Cone] [Cone; Cone] = None.
Proof. reflexivity. Qed.

Example fft_empty : fft [] = None.
Proof. reflexivity. Qed.
